(** * Sentinel DataOps: the incident lifecycle of [App.tsx]

    A shallow embedding of the orchestration code of the repository:
    - [types.ts]: log entries and alerts;
    - [services/geminiService.ts]: [analyzeForAlerts] and
      [agentDiagnoseAndHeal], written as resumptions that either return
      at once or issue one request to the inference service;
    - [App.tsx]: the handlers, the related-logs view, the monitoring
      effect and the self-healing effect, the latter two as an
      event-driven transition system over the component state.

    Strings are [string], [Date.now()] is a [Z] (milliseconds), JS arrays
    are lists, optional fields are [option]. *)

From Stdlib Require Import List String Ascii ZArith Bool Lia Arith.
From Stdlib Require Import DecimalString.
From Stdlib Require DecimalNat DecimalFacts Finite.
From Stdlib Require Import Sorted Permutation.
Import ListNotations.
Local Open Scope string_scope.
Local Open Scope Z_scope.
Local Open Scope list_scope.

(** ** types.ts *)

Inductive LogLevel := INFO | WARNING | ERROR | CRITICAL | SUCCESS.

Definition LogLevel_eqb (a b : LogLevel) : bool :=
  match a, b with
  | INFO, INFO | WARNING, WARNING | ERROR, ERROR
  | CRITICAL, CRITICAL | SUCCESS, SUCCESS => true
  | _, _ => false
  end.

(** [interface LogEntry].  The fields [id] and [timestamp] exist in both
    interfaces; they carry a prefix here. *)
Record LogEntry := mkLog {
  l_id : string;
  l_timestamp : string;
  service : string;
  level : LogLevel;
  message : string;
  raw : option string
}.

Inductive Severity := low | medium | high | critical.

Inductive Status := active | investigating | healing | resolved.

Definition Status_eqb (a b : Status) : bool :=
  match a, b with
  | active, active | investigating, investigating
  | healing, healing | resolved, resolved => true
  | _, _ => false
  end.

(** [interface SystemAlert]; the three fields marked [?] are optional. *)
Record SystemAlert := mkAlert {
  a_id : string;
  title : string;
  description : string;
  severity : Severity;
  status : Status;
  affectedService : string;
  a_timestamp : string;
  agentThoughts : option (list string);
  fixAction : option string;
  relatedLogIds : option (list string)
}.

(** Object spread with an overriding field, [{ ...a, status: s }]. *)
Definition with_status (s : Status) (a : SystemAlert) : SystemAlert :=
  mkAlert (a_id a) (title a) (description a) (severity a) s
          (affectedService a) (a_timestamp a) (agentThoughts a)
          (fixAction a) (relatedLogIds a).

(** [{ ...a, agentThoughts: [t], fixAction: f }]. *)
Definition with_plan (t f : string) (a : SystemAlert) : SystemAlert :=
  mkAlert (a_id a) (title a) (description a) (severity a) (status a)
          (affectedService a) (a_timestamp a) (Some [t]) (Some f)
          (relatedLogIds a).

(** ** The environment *)

(** One reading of the wall clock: [Date.now()] and
    [new Date().toISOString()]. *)
Record Clock := mkClock { now : Z; iso : string }.

(** [process.env.API_KEY]: a string or [undefined]; [!apiKey] holds of
    [undefined] and of the empty string. *)
Definition truthy (apiKey : option string) : bool :=
  match apiKey with
  | Some k => negb (String.eqb k "")
  | None => false
  end.

(** What the awaited [ai.models.generateContent] followed by [JSON.parse]
    gives inside the [try] block: either something was thrown, or the
    parsed payload, taken at the shape of its [responseSchema]. *)
Inductive Outcome (A : Type) :=
| Thrown
| Parsed (a : A).
Arguments Thrown {A}.
Arguments Parsed {A} a.

(** An [async] service function: it returns without touching the network
    ([Ret]) or sends one request and continues with what comes back
    ([Await]); the continuation also reads the clock. *)
Inductive Async (Req Resp R : Type) :=
| Ret (r : R)
| Await (q : Req) (k : Clock -> Outcome Resp -> R).
Arguments Ret {Req Resp R} r.
Arguments Await {Req Resp R} q k.

Definition calls_service {Req Resp R} (c : Async Req Resp R) : bool :=
  match c with Ret _ => false | Await _ _ => true end.

(** Template literals print numbers in decimal. *)
Definition show_Z (z : Z) : string := NilZero.string_of_int (Z.to_int z).
Definition show_nat (n : nat) : string := NilZero.string_of_uint (Nat.to_uint n).

(** ** services/geminiService.ts *)

(** One item of the alert [responseSchema]. *)
Record AlertDraft := mkDraft {
  d_title : string;
  d_description : string;
  d_severity : Severity;
  d_affectedService : string;
  d_suggestedFix : string;
  d_relatedLogIds : option (list string)
}.

Definition problematic (l : LogEntry) : bool :=
  LogLevel_eqb (level l) ERROR || LogLevel_eqb (level l) CRITICAL
  || LogLevel_eqb (level l) WARNING.

(** [parsed.map((a, idx) => ({ ...a, id, status: 'active', timestamp,
    agentThoughts: [] }))]. *)
Fixpoint materialize (clk : Clock) (idx : nat) (ds : list AlertDraft)
  : list SystemAlert :=
  match ds with
  | [] => []
  | d :: ds' =>
      mkAlert ("alert-" ++ show_Z (now clk) ++ "-" ++ show_nat idx)%string
              (d_title d) (d_description d) (d_severity d) active
              (d_affectedService d) (iso clk) (Some []) None
              (d_relatedLogIds d)
      :: materialize clk (S idx) ds'
  end.

(** [analyzeForAlerts]; the request carries the problematic logs. *)
Definition analyzeForAlerts (apiKey : option string) (logs : list LogEntry)
  : Async (list LogEntry) (list AlertDraft) (list SystemAlert) :=
  if negb (truthy apiKey) || (List.length logs =? 0)%nat then Ret []
  else
    let problematicLogs := filter problematic logs in
    if (List.length problematicLogs =? 0)%nat then Ret []
    else Await problematicLogs
               (fun clk o =>
                  match o with
                  | Parsed ds => materialize clk 0 ds
                  | Thrown => []
                  end).

(** The object [agentDiagnoseAndHeal] resolves to. *)
Record Diagnosis := mkDiag {
  thoughts : string;
  action : string;
  success : bool
}.

(** What the diagnosis prompt interpolates from the alert. *)
Record DiagPrompt := mkPrompt {
  p_title : string;
  p_service : string;
  p_description : string
}.

Definition key_missing : Diagnosis :=
  mkDiag "API Key missing." "None" false.

Definition agent_failed : Diagnosis :=
  mkDiag "Agent process failed." "Manual intervention required" false.

Definition agentDiagnoseAndHeal (apiKey : option string) (alert : SystemAlert)
  : Async DiagPrompt Diagnosis Diagnosis :=
  if negb (truthy apiKey) then Ret key_missing
  else Await (mkPrompt (title alert) (affectedService alert) (description alert))
             (fun _ o =>
                match o with
                | Parsed d => d
                | Thrown => agent_failed
                end).

(** ** App.tsx: the related-logs view *)

Definition includes (ids : list string) (x : string) : bool :=
  existsb (String.eqb x) ids.

(** The value [handleViewRelatedLogs] passes to [setLogFilterIds]. *)
Definition handleViewRelatedLogs (alert : SystemAlert) (logs : list LogEntry)
  : option (list string) :=
  match relatedLogIds alert with
  | Some (i :: ids) => Some (i :: ids)
  | _ =>
      let relevantLogs :=
        map l_id
            (filter (fun l => String.eqb (service l) (affectedService alert)
                              && (LogLevel_eqb (level l) ERROR
                                  || LogLevel_eqb (level l) CRITICAL
                                  || LogLevel_eqb (level l) WARNING))
                    logs) in
      if (0 <? List.length relevantLogs)%nat then Some relevantLogs else None
  end.

(** The [displayedLogs] memo: [null] means no filter, any array (also the
    empty one) filters. *)
Definition displayedLogs (logs : list LogEntry) (logFilterIds : option (list string))
  : list LogEntry :=
  match logFilterIds with
  | None => logs
  | Some ids => filter (fun l => includes ids (l_id l)) logs
  end.

(** What the log view shows right after "View Related Logs" on [alert]. *)
Definition relatedLogs (alert : SystemAlert) (logs : list LogEntry) : list LogEntry :=
  displayedLogs logs (handleViewRelatedLogs alert logs).

(** The service and level test of the fallback path. *)
Definition relevant (alert : SystemAlert) (l : LogEntry) : bool :=
  String.eqb (service l) (affectedService alert)
  && (LogLevel_eqb (level l) ERROR || LogLevel_eqb (level l) CRITICAL
      || LogLevel_eqb (level l) WARNING).

(** ** App.tsx: the state updates of [healSystem] *)

Definition is_active (a : SystemAlert) : bool := Status_eqb (status a) active.

(** [prev.map(a => a.id === alert.id ? { ...a, status: 'healing' } : a)] *)
Definition markHealing (alert : SystemAlert) (prev : list SystemAlert) :=
  map (fun a => if String.eqb (a_id a) (a_id alert)
                then with_status healing a else a) prev.

(** [prev.map(a => a.id === alert.id ? { ...a, agentThoughts:
    [diagnosis.thoughts], fixAction: diagnosis.action } : a)] *)
Definition applyPlan (alert : SystemAlert) (diagnosis : Diagnosis)
  (prev : list SystemAlert) :=
  map (fun a => if String.eqb (a_id a) (a_id alert)
                then with_plan (thoughts diagnosis) (action diagnosis) a
                else a) prev.

(** [prev.map(a => a.id === alert.id ? { ...a, status: 'resolved' } : a)] *)
Definition markResolved (alert : SystemAlert) (prev : list SystemAlert) :=
  map (fun a => if String.eqb (a_id a) (a_id alert)
                then with_status resolved a else a) prev.

Definition successLog (clk : Clock) (alert : SystemAlert) (diagnosis : Diagnosis)
  : LogEntry :=
  {| l_id := ("sys-" ++ show_Z (now clk))%string;
     l_timestamp := iso clk;
     level := SUCCESS;
     service := "Sentinel-Agent";
     message := ("Resolved alert: " ++ title alert ++ ". Action Taken: "
                 ++ action diagnosis)%string;
     raw := None |}.

(** The two stores a healing run writes to. *)
Definition Stores : Type := list SystemAlert * list LogEntry.

(** The [// Resolve] block. *)
Definition resolveStep (clk : Clock) (alert : SystemAlert) (diagnosis : Diagnosis)
  (s : Stores) : Stores :=
  if success diagnosis
  then (markResolved alert (fst s), snd s ++ [successLog clk alert diagnosis])
  else s.

(** One iteration of the [for] loop of [healSystem], the awaits elided:
    [diagnosis] is what [agentDiagnoseAndHeal(alert)] resolved to and [clk]
    the clock when the action delay ends. *)
Definition healOne (clk : Clock) (alert : SystemAlert) (diagnosis : Diagnosis)
  (s : Stores) : Stores :=
  resolveStep clk alert diagnosis
    (applyPlan alert diagnosis (markHealing alert (fst s)), snd s).

(** ** App.tsx: the monitoring effect *)

Definition hasErrors (logs : list LogEntry) : bool :=
  existsb (fun l => LogLevel_eqb (level l) ERROR
                    || LogLevel_eqb (level l) CRITICAL) logs.

(** [monitorLogs]: [None] when it returns without calling
    [analyzeForAlerts], otherwise the call whose result goes to
    [setAlerts]. *)
Definition monitorLogs (apiKey : option string) (logs : list LogEntry)
  (alerts : list SystemAlert)
  : option (Async (list LogEntry) (list AlertDraft) (list SystemAlert)) :=
  if (List.length logs =? 0)%nat then None
  else if hasErrors logs && (List.length alerts =? 0)%nat
       then Some (analyzeForAlerts apiKey logs)
       else None.

(** ** App.tsx: the component as a transition system *)

(** Where a run of [healSystem] is suspended. *)
Inductive Phase :=
| Thinking (wake : Z)
| Diagnosing (k : Clock -> Outcome Diagnosis -> Diagnosis)
| Acting (diagnosis : Diagnosis) (wake : Z)
| Finished.

(** A run of [healSystem]: the loop variable [alert], the rest of
    [activeAlerts] (both read from the [alerts] the effect closed over),
    and the await it is suspended at. *)
Record Healer := mkHealer {
  current : SystemAlert;
  queue : list SystemAlert;
  phase : Phase
}.

Record App := mkApp {
  logs : list LogEntry;
  alerts : list SystemAlert;
  logFilterIds : option (list string);
  monitors : list (option (Clock -> Outcome (list AlertDraft) -> list SystemAlert));
  healers : list Healer;
  clock : Z
}.

Definition initial : App := mkApp [] [] None [] [] 0.

Definition set_logs (l : list LogEntry) (st : App) : App :=
  mkApp l (alerts st) (logFilterIds st) (monitors st) (healers st) (clock st).
Definition set_alerts (a : list SystemAlert) (st : App) : App :=
  mkApp (logs st) a (logFilterIds st) (monitors st) (healers st) (clock st).
Definition set_filter (f : option (list string)) (st : App) : App :=
  mkApp (logs st) (alerts st) f (monitors st) (healers st) (clock st).
Definition set_monitors m (st : App) : App :=
  mkApp (logs st) (alerts st) (logFilterIds st) m (healers st) (clock st).
Definition set_healers (h : list Healer) (st : App) : App :=
  mkApp (logs st) (alerts st) (logFilterIds st) (monitors st) h (clock st).
Definition set_clock (t : Z) (st : App) : App :=
  mkApp (logs st) (alerts st) (logFilterIds st) (monitors st) (healers st) t.

Fixpoint replace_nth {A} (n : nat) (x : A) (l : list A) : list A :=
  match l, n with
  | [], _ => []
  | _ :: t, O => x :: t
  | h :: t, S n' => h :: replace_nth n' x t
  end.

(** The self-healing effect.  It runs after every render in which
    [alerts] is a new array.  When some alert is active it starts
    [healSystem], which runs up to its first await: the first active alert
    is marked healing and the 2000 ms timer is set.  That [setAlerts]
    renders again, so the effect runs again on the new array; [fuel] bounds
    these rounds. *)
Fixpoint healEffect (fuel : nat) (st : App) : App :=
  match fuel with
  | O => st
  | S fuel' =>
      match filter is_active (alerts st) with
      | [] => st
      | alert :: rest =>
          healEffect fuel'
            (set_healers (healers st ++ [mkHealer alert rest (Thinking (clock st + 2000))])
               (set_alerts (markHealing alert (alerts st)) st))
      end
  end.

(** Each round marks at least one active alert healing, so the number of
    active alerts is enough fuel. *)
Definition runHealEffect (st : App) : App :=
  healEffect (List.length (filter is_active (alerts st))) st.

(** The monitoring effect, run after every render in which [logs] is a
    new array. *)
Definition runMonitorEffect (apiKey : option string) (st : App) : App :=
  match monitorLogs apiKey (logs st) (alerts st) with
  | None => st
  | Some (Ret newAlerts) => set_alerts newAlerts st
  | Some (Await _ k) => set_monitors (monitors st ++ [Some k]) st
  end.

Definition heartbeat (clk : Clock) : LogEntry :=
  {| l_id := ("live-" ++ show_Z (now clk))%string;
     l_timestamp := iso clk;
     service := "System Monitor";
     level := INFO;
     message := "Heartbeat check passed. System metrics validated.";
     raw := None |}.

(** The events the component reacts to, each at the moment its state
    update runs:
    - [FileUploaded]: [reader.onload] got [parsed] from [parseRawLogs];
    - [EnterpriseScenario]: the 800 ms callback of
      [handleEnterpriseScenario] got [enterpriseLogs] from
      [generateEnterpriseLogs] (the button was enabled when clicked);
    - [Refresh]: [handleRefresh] is past its 800 ms delay;
    - [ResetData], [ViewRelatedLogs], [ClearLogFilter]: the click;
    - [AlertsProposed i]: the request of the [i]-th pending
      [analyzeForAlerts] settles;
    - [TimerFires i]: the pending [setTimeout] of the [i]-th run of
      [healSystem] fires;
    - [DiagnosisSettles i]: the request of [agentDiagnoseAndHeal] of the
      [i]-th run settles. *)
Inductive Event :=
| FileUploaded (parsed : list LogEntry)
| EnterpriseScenario (enterpriseLogs : list LogEntry)
| Refresh
| ResetData
| ViewRelatedLogs (alert : SystemAlert)
| ClearLogFilter
| AlertsProposed (i : nat) (o : Outcome (list AlertDraft))
| TimerFires (i : nat)
| DiagnosisSettles (i : nat) (o : Outcome Diagnosis).

(** After [agentDiagnoseAndHeal] resolved to [diagnosis] in run [i]: the
    plan is written and the 4000 ms timer is set. *)
Definition planned (clk : Clock) (i : nat) (h : Healer) (diagnosis : Diagnosis)
  (st : App) : App :=
  set_healers
    (replace_nth i (mkHealer (current h) (queue h)
                             (Acting diagnosis (now clk + 4000))) (healers st))
    (set_alerts (applyPlan (current h) diagnosis (alerts st)) st).

(** The loop of run [i] moves on: the next alert of its snapshot is marked
    healing, or the run ends. *)
Definition advance (clk : Clock) (i : nat) (h : Healer) (st : App) : App :=
  match queue h with
  | [] => set_healers (replace_nth i (mkHealer (current h) [] Finished) (healers st)) st
  | next :: rest =>
      set_healers
        (replace_nth i (mkHealer next rest (Thinking (now clk + 2000))) (healers st))
        (set_alerts (markHealing next (alerts st)) st)
  end.

(** What the component does on one event, the clock reading [clk] being
    the time of the event.  [None]: the event cannot happen in this state
    (the reset button is not rendered, no such pending request or timer).
    Effects are run in the order the component declares them. *)
Definition react (apiKey : option string) (clk : Clock) (e : Event) (st0 : App)
  : option App :=
  let st := set_clock (now clk) st0 in
  match e with
  | FileUploaded parsed =>
      Some (runHealEffect (runMonitorEffect apiKey (set_logs (logs st ++ parsed) st)))
  | EnterpriseScenario enterpriseLogs =>
      Some (runHealEffect
              (runMonitorEffect apiKey (set_logs (logs st ++ enterpriseLogs) st)))
  | Refresh =>
      Some (runHealEffect
              (runMonitorEffect apiKey (set_logs (logs st ++ [heartbeat clk]) st)))
  | ResetData =>
      if (0 <? List.length (logs st))%nat
      then Some (runHealEffect (runMonitorEffect apiKey (set_alerts [] (set_logs [] st))))
      else None
  | ViewRelatedLogs alert =>
      Some (set_filter (handleViewRelatedLogs alert (logs st)) st)
  | ClearLogFilter => Some (set_filter None st)
  | AlertsProposed i o =>
      match nth_error (monitors st) i with
      | Some (Some k) =>
          Some (runHealEffect
                  (set_alerts (k clk o) (set_monitors (replace_nth i None (monitors st)) st)))
      | _ => None
      end
  | TimerFires i =>
      match nth_error (healers st) i with
      | Some h =>
          match phase h with
          | Thinking _ =>
              match agentDiagnoseAndHeal apiKey (current h) with
              | Ret diagnosis => Some (runHealEffect (planned clk i h diagnosis st))
              | Await _ k =>
                  Some (set_healers
                          (replace_nth i (mkHealer (current h) (queue h) (Diagnosing k))
                                       (healers st)) st)
              end
          | Acting diagnosis _ =>
              let s := resolveStep clk (current h) diagnosis (alerts st, logs st) in
              let st1 := advance clk i h (set_logs (snd s) (set_alerts (fst s) st)) in
              Some (runHealEffect
                      (if success diagnosis then runMonitorEffect apiKey st1 else st1))
          | _ => None
          end
      | None => None
      end
  | DiagnosisSettles i o =>
      match nth_error (healers st) i with
      | Some h =>
          match phase h with
          | Diagnosing k => Some (runHealEffect (planned clk i h (k clk o) st))
          | _ => None
          end
      | None => None
      end
  end.

(** Timers: [setTimeout] callbacks run at their deadline, so no event is
    handled while a timer is overdue, and [TimerFires i] happens at the
    deadline of the timer of run [i]. *)
Definition wake_time (h : Healer) : option Z :=
  match phase h with
  | Thinking w | Acting _ w => Some w
  | _ => None
  end.

Definition none_overdue (t : Z) (hs : list Healer) : bool :=
  forallb (fun h => match wake_time h with
                    | Some w => t <=? w
                    | None => true
                    end) hs.

Definition on_time (clk : Clock) (e : Event) (st : App) : bool :=
  (clock st <=? now clk) && none_overdue (now clk) (healers st)
  && match e with
     | TimerFires i =>
         match nth_error (healers st) i with
         | Some h => match wake_time h with
                     | Some w => w =? now clk
                     | None => false
                     end
         | None => false
         end
     | _ => true
     end.

Definition step (apiKey : option string) (ce : Clock * Event) (st : App)
  : option App :=
  if on_time (fst ce) (snd ce) st then react apiKey (fst ce) (snd ce) st else None.

Fixpoint exec (apiKey : option string) (trace : list (Clock * Event)) (st : App)
  : option App :=
  match trace with
  | [] => Some st
  | ce :: trace' =>
      match step apiKey ce st with
      | Some st' => exec apiKey trace' st'
      | None => None
      end
  end.

(** The same without the timing discipline: any order and any times. *)
Fixpoint run (apiKey : option string) (trace : list (Clock * Event)) (st : App)
  : option App :=
  match trace with
  | [] => Some st
  | ce :: trace' =>
      match react apiKey (fst ce) (snd ce) st with
      | Some st' => run apiKey trace' st'
      | None => None
      end
  end.

(** Observations on a state. *)
Definition status_of (id : string) (st : App) : option Status :=
  option_map status (find (fun a => String.eqb (a_id a) id) (alerts st)).

Definition thoughts_of (id : string) (st : App) : option (option (list string)) :=
  option_map agentThoughts (find (fun a => String.eqb (a_id a) id) (alerts st)).

(** The status of alert [id] after each event of an execution. *)
Fixpoint statuses (apiKey : option string) (id : string)
  (trace : list (Clock * Event)) (st : App) : list (option Status) :=
  match trace with
  | [] => []
  | ce :: trace' =>
      match step apiKey ce st with
      | Some st' => status_of id st' :: statuses apiKey id trace' st'
      | None => []
      end
  end.

Definition is_diagnosing (id : string) (h : Healer) : bool :=
  match phase h with
  | Diagnosing _ => String.eqb (a_id (current h)) id
  | _ => false
  end.

(** The runs of [healSystem] awaiting [agentDiagnoseAndHeal] for alert
    [id]. *)
Definition diagnose_calls_in_flight (id : string) (st : App) : nat :=
  List.length (filter (is_diagnosing id) (healers st)).

(** ** Concrete data for the scenarios below *)

Definition at_ms (t : Z) : Clock := mkClock t (show_Z t).

Definition some_key : option string := Some "k".

Definition glue_oom : LogEntry :=
  mkLog "ent-1" "t1" "AWS Glue" ERROR "Job run failed. Error: Java Heap Space" None.
Definition pipe_stalled : LogEntry :=
  mkLog "ent-2" "t2" "Snowflake" CRITICAL "Pipe SALES_PIPE status: STALLED" None.
Definition kafka_lag : LogEntry :=
  mkLog "ent-3" "t3" "Kafka" WARNING "Consumer Group lag increasing" None.
Definition kafka_info : LogEntry :=
  mkLog "ent-4" "t4" "Kafka" INFO "leader re-election initiated" None.
Definition api_normal : LogEntry :=
  mkLog "ent-5" "t5" "Salesforce" INFO "API usage normal." None.

Definition draft_glue : AlertDraft :=
  mkDraft "Glue OOM" "Glue job ran out of memory" high "AWS Glue"
          "Scale workers" (Some ["ent-1"]).
Definition draft_pipe : AlertDraft :=
  mkDraft "Pipe stalled" "Snowflake pipe stalled" critical "Snowflake"
          "Backfill" (Some ["ent-2"]).

Definition scale_glue : Diagnosis := mkDiag "Glue ran out of heap" "Scale Glue Workers" true.
Definition backfill : Diagnosis := mkDiag "Pipe starved by Glue" "Trigger Backfill" true.
Definition backfill_again : Diagnosis := mkDiag "Pipe still empty" "Trigger Backfill" true.

(** An alert as [analyzeForAlerts] builds it, and the same alert after a
    first diagnosis. *)
Definition kafka_alert : SystemAlert :=
  mkAlert "alert-7-0" "Kafka lag" "Consumer lag" medium active "Kafka" "t7"
          (Some []) None (Some []).
Definition ghost_alert : SystemAlert :=
  mkAlert "alert-7-1" "Ghost" "Refers to an unknown log" low active "SAP" "t7"
          (Some []) None (Some ["log-404"]).
Definition diagnosed_alert : SystemAlert :=
  mkAlert "alert-7-2" "Pipe stalled" "Snowflake pipe stalled" critical healing
          "Snowflake" "t7" (Some ["Pipe starved by Glue"]) (Some "Trigger Backfill")
          (Some ["ent-2"]).

(** Two alerts are detected at 1000 ms; both runs of [healSystem] start
    diagnosing at 3000 ms. *)
Definition two_alerts_detected : list (Clock * Event) :=
  [ (at_ms 0, FileUploaded [glue_oom; pipe_stalled]);
    (at_ms 1000, AlertsProposed 0 (Parsed [draft_glue; draft_pipe]));
    (at_ms 3000, TimerFires 0);
    (at_ms 3000, TimerFires 1) ].

(** The first alert is diagnosed within 400 ms; the request for the second
    one is still pending at 9400 ms. *)
Definition slow_second_diagnosis : list (Clock * Event) :=
  two_alerts_detected ++
  [ (at_ms 3400, DiagnosisSettles 0 (Parsed scale_glue));
    (at_ms 7400, TimerFires 0);
    (at_ms 9400, TimerFires 0) ].

(** The second alert is diagnosed after 300 ms and resolved at 7300 ms;
    the first one is diagnosed after 2000 ms. *)
Definition fast_second_diagnosis : list (Clock * Event) :=
  two_alerts_detected ++
  [ (at_ms 3300, DiagnosisSettles 1 (Parsed backfill));
    (at_ms 5000, DiagnosisSettles 0 (Parsed scale_glue));
    (at_ms 7300, TimerFires 1) ].

(** The run started for both alerts then reaches the second alert of its
    snapshot and has it diagnosed once more. *)
Definition second_alert_rediagnosed : list (Clock * Event) :=
  fast_second_diagnosis ++
  [ (at_ms 9000, TimerFires 0);
    (at_ms 11000, TimerFires 0);
    (at_ms 11500, DiagnosisSettles 0 (Parsed backfill_again)) ].

Definition second_alert_marked_again : list (Clock * Event) :=
  fast_second_diagnosis ++ [ (at_ms 9000, TimerFires 0) ].

Definition upload_then_reset : list (Clock * Event) :=
  [ (at_ms 0, FileUploaded [kafka_info; api_normal]); (at_ms 500, ResetData) ].

Definition upload_then_refresh : list (Clock * Event) :=
  [ (at_ms 0, FileUploaded [kafka_info; api_normal]); (at_ms 900, Refresh) ].

Definition after_refresh : App :=
  mkApp [kafka_info; api_normal; heartbeat (at_ms 900)] [] None [] [] 900.

(** ** services/geminiService.ts: [parseRawLogs] *)

(** One item of the log [responseSchema]. *)
Record ParsedLine := mkLine {
  pl_timestamp : string;
  pl_service : string;
  pl_level : LogLevel;
  pl_message : string
}.

Definition newline : ascii := "010"%char.

(** [s.split('\n')]: the pieces between newlines; the empty string gives
    one empty piece. *)
Fixpoint split_lines (s : string) : list string :=
  match s with
  | EmptyString => [EmptyString]
  | String c s' =>
      if Ascii.eqb c newline then EmptyString :: split_lines s'
      else match split_lines s' with
           | piece :: pieces => String c piece :: pieces
           | [] => [String c EmptyString]
           end
  end.

(** [parsed.map((p, idx) => ({ ...p, id: `parsed-${Date.now()}-${idx}`,
    raw: rawText.split('\n')[idx] || '' }))] *)
Fixpoint number_lines (clk : Clock) (rawText : string) (idx : nat)
  (ps : list ParsedLine) : list LogEntry :=
  match ps with
  | [] => []
  | p :: ps' =>
      {| l_id := ("parsed-" ++ show_Z (now clk) ++ "-" ++ show_nat idx)%string;
         l_timestamp := pl_timestamp p;
         service := pl_service p;
         level := pl_level p;
         message := pl_message p;
         raw := Some (nth idx (split_lines rawText) EmptyString) |}
      :: number_lines clk rawText (S idx) ps'
  end.

(** [parseRawLogs]; the request carries [rawText.substring(0, 10000)].
    [getAiClient] only builds the client object. *)
Definition parseRawLogs (apiKey : option string) (rawText : string)
  : Async string (list ParsedLine) (list LogEntry) :=
  if negb (truthy apiKey) then Ret []
  else Await (String.substring 0 (Z.to_nat 10000) rawText)
             (fun clk o =>
                match o with
                | Parsed ps => number_lines clk rawText 0 ps
                | Thrown => []
                end).

(** ** services/geminiService.ts: [streamChatResponse] *)

(** [arr.slice(-n)] *)
Definition slice_last {A} (n : nat) (l : list A) : list A :=
  skipn (List.length l - n) l.

(** The values interpolated into [contextStr]. *)
Record ChatContext := mkContext {
  cc_activeCount : nat;
  cc_totalLogs : nat;
  cc_activeAlerts : list SystemAlert;
  cc_errorLogs : list LogEntry;
  cc_recentLogs : list LogEntry
}.

Definition unresolved (a : SystemAlert) : bool := negb (Status_eqb (status a) resolved).

Definition chatContext (logs0 : list LogEntry) (alerts0 : list SystemAlert)
  : ChatContext :=
  {| cc_activeCount := List.length (filter unresolved alerts0);
     cc_totalLogs := List.length logs0;
     cc_activeAlerts := filter unresolved alerts0;
     cc_errorLogs := filter problematic logs0;
     cc_recentLogs := slice_last 10 logs0 |}.

(** One turn of the chat history: [{ role, parts: [{ text }, ...] }]. *)
Record Turn := mkTurn { t_role : string; t_parts : list string }.

(** [streamChatResponse] either throws before any request or opens the
    chat with the context, the history and the message. *)
Inductive ChatCall :=
| ChatThrows (msg : string)
| ChatSends (context : ChatContext) (history : list Turn) (currentMessage : string).

Definition streamChatResponse (apiKey : option string) (history : list Turn)
  (currentMessage : string) (logs0 : list LogEntry) (alerts0 : list SystemAlert)
  : ChatCall :=
  if negb (truthy apiKey) then ChatThrows "API Key missing"
  else ChatSends (chatContext logs0 alerts0) history currentMessage.

(** ** components/Dashboard.tsx: the [stats] memo *)

Record Stats := mkStats {
  errorCount : nat;
  warnCount : nat;
  successCount : nat;
  activeAlerts : nat;
  resolvedAlerts : nat
}.

Definition stats (logs0 : list LogEntry) (alerts0 : list SystemAlert) : Stats :=
  {| errorCount :=
       List.length (filter (fun l => LogLevel_eqb (level l) ERROR
                                     || LogLevel_eqb (level l) CRITICAL) logs0);
     warnCount := List.length (filter (fun l => LogLevel_eqb (level l) WARNING) logs0);
     successCount :=
       List.length (filter (fun l => LogLevel_eqb (level l) SUCCESS
                                     || LogLevel_eqb (level l) INFO) logs0);
     activeAlerts :=
       List.length (filter (fun a => negb (Status_eqb (status a) resolved)) alerts0);
     resolvedAlerts :=
       List.length (filter (fun a => Status_eqb (status a) resolved) alerts0) |}.

(** ** App.tsx: what the self-healing effect starts *)

(** One run per element of [activeAlerts], each on the alerts from that
    element on. *)
Fixpoint suffix_runs (t : Z) (activeAlerts0 : list SystemAlert) : list Healer :=
  match activeAlerts0 with
  | [] => []
  | alert :: rest => mkHealer alert rest (Thinking (t + 2000)) :: suffix_runs t rest
  end.

Definition heal_if_active (a : SystemAlert) : SystemAlert :=
  if is_active a then with_status healing a else a.

(** No alert of the store is active. *)
Definition settled (st : App) : Prop := filter is_active (alerts st) = [].

(** Nothing detected, nothing pending, nothing healing. *)
Definition idle (st : App) : Prop :=
  alerts st = [] /\ monitors st = [] /\ healers st = [].

(** Two versions of one alert: what identifies and describes the incident
    is the same, and the status is the old one, [healing] or [resolved]. *)
Definition evolves (a b : SystemAlert) : Prop :=
  a_id b = a_id a /\ title b = title a /\ description b = description a
  /\ severity b = severity a /\ affectedService b = affectedService a
  /\ a_timestamp b = a_timestamp a /\ relatedLogIds b = relatedLogIds a
  /\ (status b = status a \/ status b = healing \/ status b = resolved).

(** The events that do not replace the alert store. *)
Definition keeps_alerts (e : Event) : bool :=
  match e with
  | ResetData | AlertsProposed _ _ => false
  | _ => true
  end.

(** The record, if any, the timer of run [i] writes to the log store. *)
Definition timer_log (clk : Clock) (i : nat) (st : App) : list LogEntry :=
  match nth_error (healers st) i with
  | Some h =>
      match phase h with
      | Acting diagnosis _ =>
          if success diagnosis then [successLog clk (current h) diagnosis] else []
      | _ => []
      end
  | None => []
  end.

Definition two_raw_lines : string :=
  String.concat (String newline EmptyString)
    ["2024-01-01 ERROR glue: job failed"; "2024-01-01 INFO kafka: ok"].

Definition parsed_lines : list ParsedLine :=
  [ mkLine "2024-01-01" "glue" ERROR "job failed";
    mkLine "2024-01-01" "kafka" INFO "ok";
    mkLine "2024-01-02" "sap" WARNING "invented" ].

(** A run on [diagnosed_alert] whose action delay ends at 7000 ms, and
    the state after its timer fired. *)
Definition acting_state : App :=
  mkApp [pipe_stalled] [diagnosed_alert] None []
        [mkHealer diagnosed_alert [] (Acting backfill 7000)] 3000.

Definition resolved_state : App :=
  mkApp [pipe_stalled; successLog (at_ms 7000) diagnosed_alert backfill]
        [with_status resolved diagnosed_alert] None []
        [mkHealer diagnosed_alert [] Finished] 7000.

(** ** services/mockData.ts: [generateEnterpriseLogs] *)

(** What the generator reads from outside: [new Date()], the rendering
    [toISOString] of an instant, and [Math.random()]: whether the [n]-th
    draw of the noise loop is above 0.7, and the id suffix
    [Math.random().toString(36).substr(2, 9)] of the [n]-th call of
    [add]. *)
Record World := mkWorld {
  w_now : Z;
  w_iso : Z -> string;
  w_noisy : nat -> bool;
  w_suffix : nat -> string
}.

(** The enum values as template literals print them. *)
Definition level_name (l : LogLevel) : string :=
  match l with
  | INFO => "INFO" | WARNING => "WARNING" | ERROR => "ERROR"
  | CRITICAL => "CRITICAL" | SUCCESS => "SUCCESS"
  end.

(** A log together with the instant its timestamp stands for, which is
    what [new Date(a.timestamp).getTime()] gives back in the comparator. *)
Definition Timed : Type := Z * LogEntry.

(** The helper [add]: [logs.push] of a log dated [minutesAgo] back. *)
Definition add (w : World) (logs0 : list Timed) (minutesAgo : Z)
  (service0 : string) (level0 : LogLevel) (message0 : string) : list Timed :=
  let d := w_now w - minutesAgo * 60 * 1000 in
  logs0 ++
  [ (d, {| l_id := ("ent-" ++ w_suffix w (List.length logs0))%string;
           l_timestamp := w_iso w d;
           service := service0;
           level := level0;
           message := message0;
           raw := Some (w_iso w d ++ " [" ++ level_name level0 ++ "] "
                        ++ service0 ++ ": " ++ message0)%string |}) ].

Definition services : list string :=
  [ "Salesforce"; "Amazon Connect"; "Kafka"; "Informatica";
    "AWS Glue"; "Snowflake"; "SAP"; "Sales System" ].

(** [for (let m = 1440; m > 0; m -= 60)]: 1440, 1380, ..., 60. *)
Definition noise_minutes : list Z :=
  map (fun k => 1440 - 60 * Z.of_nat k) (seq 0 24).

(** The pairs the two nested loops visit, in order. *)
Definition noise_slots : list (Z * string) :=
  flat_map (fun m => map (pair m) services) noise_minutes.

(** The background noise: one draw per slot, a health check when the draw
    is above 0.7. *)
Fixpoint background (w : World) (draw : nat) (slots : list (Z * string))
  (logs0 : list Timed) : list Timed :=
  match slots with
  | [] => logs0
  | (m, s) :: slots' =>
      background w (S draw) slots'
        (if w_noisy w draw
         then add w logs0 m s INFO "Health check passed. Service availability: 99.9%"
         else logs0)
  end.

Definition dquote : ascii := "034"%char.

(** The incident scenario and the two recent logs: the fixed calls of
    [add], in order. *)
Definition incident : list (Z * string * LogLevel * string) :=
  [ (180, "Sales System", INFO,
     "Initiating End-of-Quarter Batch Upload (Projected: 2.5M records).");
    (179, "Salesforce", INFO, "Bulk API Job 7502 created. Status: Uploading");
    (170, "Kafka", INFO, "Topic `sales-raw` partition 0 leader re-election initiated.");
    (165, "Kafka", WARNING,
     "Consumer Group `glue-ingest-prod` lag increasing. Current lag: 50,000 msgs.");
    (160, "AWS Glue", INFO,
     "Job run `glue-sales-bronze` started. WorkerType: G.2X. Args: [--conf, spark.executor.memory=8g]");
    (155, "Amazon Connect", WARNING,
     "High latency detected in Contact Flow `Sales_Support`. Average handle time +15%.");
    (150, "AWS Glue", WARNING,
     "Container memory limit exceeded. Shuffle spill to disk is critical.");
    (149, "AWS Glue", ERROR,
     "Job run failed. Error: Java Heap Space / OOM. Driver unresponsive. YARN killed container.");
    (140, "Informatica", INFO, "Workflow `wkf_silver_enrich` triggered by schedule.");
    (139, "Informatica", ERROR,
     "Dependency Error: S3 Bucket `sales-bronze-output` is empty. Manifest not found.");
    (130, "SAP", ERROR,
     "IDoc inbound processing failed. Mandatory field `ORDER_ID` missing from payload (Data not enriched).");
    (120, "Snowflake", CRITICAL,
     "Pipe `SALES_PIPE` status: STALLED. File count pending: 0.");
    (119, "Snowflake", ERROR,
     "Data Freshness SLA breached for table `FACT_SALES`. Last update > 4 hours.");
    (118, "Snowflake", WARNING,
     ("Executive Dashboard Query: "
      ++ String dquote ("Select * from FACT_SALES"
                        ++ String dquote " returned stale data."))%string);
    (10, "Salesforce", INFO, "API usage normal.");
    (5, "Amazon Connect", INFO, "Metric data exported successfully.") ].

Definition add_all (w : World) (calls : list (Z * string * LogLevel * string))
  (logs0 : list Timed) : list Timed :=
  fold_left (fun acc c =>
               match c with (m, s, lv, msg) => add w acc m s lv msg end)
            calls logs0.

(** [logs.sort((a, b) => time(a) - time(b))]: the sort is stable, so a
    log goes before the logs that are not earlier and were pushed after
    it. *)
Fixpoint insert_by_time (x : Timed) (l : list Timed) : list Timed :=
  match l with
  | [] => [x]
  | y :: l' => if fst x <=? fst y then x :: l else y :: insert_by_time x l'
  end.

Definition sort_by_time (l : list Timed) : list Timed :=
  fold_right insert_by_time [] l.

(** The pushed logs before the sort, and the sorted timeline. *)
Definition pushed (w : World) : list Timed :=
  add_all w incident (background w 0 noise_slots []).

Definition timeline (w : World) : list Timed := sort_by_time (pushed w).

Definition generateEnterpriseLogs (w : World) : list LogEntry :=
  map snd (timeline w).

(** The draws of the noise loop that are above 0.7. *)
Definition noisy_draws (w : World) : list nat :=
  filter (w_noisy w) (seq 0 (List.length noise_slots)).

Definition levels_of (l : list Timed) : list LogLevel :=
  map (fun e => level (snd e)) l.

Definition incident_levels : list LogLevel :=
  map (fun c => snd (fst c)) incident.

Definition quiet_world : World :=
  mkWorld 86400000 show_Z (fun _ => false) show_nat.

(** ** components/ChatBot.tsx: [handleSend] *)

Inductive Role := role_user | role_model.

Definition role_name (r : Role) : string :=
  match r with role_user => "user" | role_model => "model" end.

(** [interface ChatMessage] *)
Record ChatMessage := mkMsg {
  m_id : string;
  m_role : Role;
  m_text : string;
  m_timestamp : Z
}.

(** [{ ...m, text: t }] *)
Definition with_text (t : string) (m : ChatMessage) : ChatMessage :=
  mkMsg (m_id m) (m_role m) t (m_timestamp m).

(** The state of the component. *)
Record Chat := mkChat {
  input : string;
  messages : list ChatMessage;
  isTyping : bool
}.

(** The white space [trim] removes, among the code units below 256: tab,
    line feed, vertical tab, form feed, carriage return, space and
    no-break space. *)
Definition is_space (c : ascii) : bool :=
  let n := nat_of_ascii c in
  ((9 <=? n) && (n <=? 13) || (n =? 32) || (n =? 160))%nat.

(** [!input.trim()] *)
Definition blank (s : string) : bool := forallb is_space (list_ascii_of_string s).

(** The readings of [Date.now()] in [handleSend], in the order of the
    source: id and timestamp of the user message, of the reply, of the
    error message. *)
Record SendClocks := mkSendClocks {
  c_user_id : Z; c_user_ts : Z;
  c_bot_id : Z; c_bot_ts : Z;
  c_err_id : Z; c_err_ts : Z
}.

(** What the chat gives back: the awaited call rejects, or a stream of
    chunks ([chunk.text] may be undefined) that ends or throws. *)
Inductive ChatReply :=
| Rejects
| Streams (chunks : list (option string)) (completes : bool).

(** The body of [for await (const chunk of stream)]: [fullText] grows and
    the message with the reply id gets it as text. *)
Fixpoint stream_chunks (botMsgId : string) (fullText : string)
  (chunks : list (option string)) (msgs : list ChatMessage) : list ChatMessage :=
  match chunks with
  | [] => msgs
  | chunk :: chunks' =>
      let text := match chunk with Some t => t | None => EmptyString end in
      let fullText' := (fullText ++ text)%string in
      stream_chunks botMsgId fullText' chunks'
        (map (fun m => if String.eqb (m_id m) botMsgId
                       then with_text fullText' m else m) msgs)
  end.

Definition error_message (c : SendClocks) : ChatMessage :=
  mkMsg (show_Z (c_err_id c)) role_model
        "I'm having trouble connecting to the Gemini API. Please check your API key."
        (c_err_ts c).

(** [handleSend], run to its end with no other update of the component in
    between: the final state and the call of [streamChatResponse], if one
    was made. *)
Definition handleSend (apiKey : option string) (logs0 : list LogEntry)
  (alerts0 : list SystemAlert) (c : SendClocks) (reply : ChatReply) (st : Chat)
  : Chat * option ChatCall :=
  if blank (input st) || isTyping st then (st, None)
  else
    let userMsg := mkMsg (show_Z (c_user_id c)) role_user (input st) (c_user_ts c) in
    let sent := messages st ++ [userMsg] in
    let history := map (fun m => mkTurn (role_name (m_role m)) [m_text m])
                       (messages st) in
    let call := streamChatResponse apiKey history (m_text userMsg) logs0 alerts0 in
    let final :=
      match call, reply with
      | ChatThrows _, _ | _, Rejects => sent ++ [error_message c]
      | ChatSends _ _ _, Streams chunks completes =>
          let botMsgId := show_Z (c_bot_id c + 1) in
          let streamed :=
            stream_chunks botMsgId EmptyString chunks
              (sent ++ [mkMsg botMsgId role_model EmptyString (c_bot_ts c)]) in
          if completes then streamed else streamed ++ [error_message c]
      end in
    (mkChat EmptyString final false, Some call).

(** The chunk texts, joined. *)
Definition chunk_text (chunks : list (option string)) : string :=
  String.concat EmptyString
    (map (fun chunk => match chunk with Some t => t | None => EmptyString end) chunks).

Definition intro_message : ChatMessage :=
  mkMsg "intro" role_model
        "Hello! I am DataOps - Chat. I have access to your system logs and alerts. How can I assist you with the data ecosystem today?"
        0.

Definition asking : Chat := mkChat "Why did Glue fail?" [intro_message] false.

Definition send_clocks : SendClocks := mkSendClocks 5000 5000 5800 5800 6000 6000.

(** The run started for both alerts heals the first within 7100 ms and
    then, from its snapshot, the second, which it resolves at 13200 ms.
    The request the run started for the second alert sent at 3000 ms is
    pending all along; it throws at 20000 ms, and that run ends its
    iteration at 24000 ms. *)
Definition resolved_by_first_run : list (Clock * Event) :=
  two_alerts_detected ++
  [ (at_ms 3100, DiagnosisSettles 0 (Parsed scale_glue));
    (at_ms 7100, TimerFires 0);
    (at_ms 9100, TimerFires 0);
    (at_ms 9200, DiagnosisSettles 0 (Parsed backfill));
    (at_ms 13200, TimerFires 0) ].

Definition thrown_after_resolution : list (Clock * Event) :=
  resolved_by_first_run ++
  [ (at_ms 20000, DiagnosisSettles 1 Thrown);
    (at_ms 24000, TimerFires 1) ].

(** After [second_alert_rediagnosed] the action delay of the second
    diagnosis of the second alert ends at 15500 ms. *)
Definition second_alert_resolved_twice : list (Clock * Event) :=
  second_alert_rediagnosed ++ [ (at_ms 15500, TimerFires 0) ].

(** The second alert is diagnosed with success and resolved at 7300 ms by
    the run started for it; the run started for both alerts marks it
    healing again at 9000 ms, and its request for it throws at 11400 ms. *)
Definition success_then_stalled : list (Clock * Event) :=
  fast_second_diagnosis ++
  [ (at_ms 9000, TimerFires 0);
    (at_ms 11000, TimerFires 0);
    (at_ms 11400, DiagnosisSettles 0 Thrown);
    (at_ms 15400, TimerFires 0) ].

(** What the agent monitor shows of the alerts, and the messages of the
    SUCCESS records of the log store. *)
Definition alert_rows (st : App) : list (string * Status * option string) :=
  map (fun a => (a_id a, status a, fixAction a)) (alerts st).

Definition success_messages (st : App) : list string :=
  map message (filter (fun l => LogLevel_eqb (level l) SUCCESS) (logs st)).

(** The runs of [healSystem] that are not over, by the id of the alert
    they are at. *)
Definition runs_in_progress (st : App) : list string :=
  map (fun h => a_id (current h))
      (filter (fun h => match phase h with Finished => false | _ => true end)
              (healers st)).

(** * Properties *)

(** ** Helper lemmas on the store updates *)

Section StoreUpdates.
Variable alert : SystemAlert.

Lemma markHealing_ids prev :
  map a_id (markHealing alert prev) = map a_id prev.
Proof.
  unfold markHealing. induction prev as [|a prev IH]; simpl; [reflexivity|].
  rewrite IH. now destruct (String.eqb (a_id a) (a_id alert)).
Qed.

Lemma markResolved_ids prev :
  map a_id (markResolved alert prev) = map a_id prev.
Proof.
  unfold markResolved. induction prev as [|a prev IH]; simpl; [reflexivity|].
  rewrite IH. now destruct (String.eqb (a_id a) (a_id alert)).
Qed.

Lemma applyPlan_ids d prev :
  map a_id (applyPlan alert d prev) = map a_id prev.
Proof.
  unfold applyPlan. induction prev as [|a prev IH]; simpl; [reflexivity|].
  rewrite IH. now destruct (String.eqb (a_id a) (a_id alert)).
Qed.

Lemma applyPlan_statuses d prev :
  map status (applyPlan alert d prev) = map status prev.
Proof.
  unfold applyPlan. induction prev as [|a prev IH]; simpl; [reflexivity|].
  rewrite IH. now destruct (String.eqb (a_id a) (a_id alert)).
Qed.

(** An alert of the updated store that carries the id of [alert] is the
    image of one that carried it before. *)
Lemma In_map_same_id (f : SystemAlert -> SystemAlert) prev a' :
  (forall a, a_id (f a) = a_id a) ->
  In a' (map (fun a => if String.eqb (a_id a) (a_id alert) then f a else a) prev) ->
  a_id a' = a_id alert ->
  exists a, In a prev /\ a_id a = a_id alert /\ a' = f a.
Proof.
  intros Hid Hin Heq. apply in_map_iff in Hin as [a [Ha Hin]].
  exists a. destruct (String.eqb (a_id a) (a_id alert)) eqn:E.
  - apply String.eqb_eq in E. auto.
  - subst a'. apply String.eqb_neq in E. contradiction.
Qed.

Lemma markHealing_spec prev a' :
  In a' (markHealing alert prev) -> a_id a' = a_id alert ->
  exists a, In a prev /\ a_id a = a_id alert /\ a' = with_status healing a.
Proof. apply In_map_same_id. reflexivity. Qed.

Lemma markResolved_spec prev a' :
  In a' (markResolved alert prev) -> a_id a' = a_id alert ->
  exists a, In a prev /\ a_id a = a_id alert /\ a' = with_status resolved a.
Proof. apply In_map_same_id. reflexivity. Qed.

Lemma applyPlan_spec d prev a' :
  In a' (applyPlan alert d prev) -> a_id a' = a_id alert ->
  exists a, In a prev /\ a_id a = a_id alert
            /\ a' = with_plan (thoughts d) (action d) a.
Proof. apply In_map_same_id. reflexivity. Qed.

(** Alerts with another id go through every update untouched. *)
Lemma In_map_other_id (f : SystemAlert -> SystemAlert) prev a :
  In a prev -> a_id a <> a_id alert ->
  In a (map (fun a => if String.eqb (a_id a) (a_id alert) then f a else a) prev).
Proof.
  intros Hin Hne. apply in_map_iff. exists a. split; [|assumption].
  apply String.eqb_neq in Hne. now rewrite Hne.
Qed.
End StoreUpdates.

(** The state of a stalled or planned alert after one loop iteration
    whose diagnosis did not succeed. *)
Lemma healOne_unsuccessful clk alert d als lg :
  success d = false ->
  healOne clk alert d (als, lg)
  = (applyPlan alert d (markHealing alert als), lg).
Proof. intros H. unfold healOne, resolveStep. now rewrite H. Qed.

Lemma healOne_successful clk alert d als lg :
  success d = true ->
  healOne clk alert d (als, lg)
  = (markResolved alert (applyPlan alert d (markHealing alert als)),
     lg ++ [successLog clk alert d]).
Proof. intros H. unfold healOne, resolveStep. now rewrite H. Qed.

Lemma stalled_alert clk alert d als lg a' :
  success d = false ->
  In a' (fst (healOne clk alert d (als, lg))) -> a_id a' = a_id alert ->
  status a' = healing /\ fixAction a' = Some (action d)
  /\ agentThoughts a' = Some [thoughts d].
Proof.
  intros Hs Hin Hid. rewrite healOne_unsuccessful in Hin by assumption.
  simpl in Hin.
  destruct (applyPlan_spec _ _ _ _ Hin Hid) as [a1 [Hin1 [Hid1 ->]]].
  destruct (markHealing_spec _ _ _ Hin1 Hid1) as [a0 [_ [_ ->]]].
  repeat split.
Qed.

(** With a key, [agentDiagnoseAndHeal] sends the request, and a thrown
    error becomes the fallback object. *)
Lemma agentDiagnoseAndHeal_with_key apiKey alert :
  truthy apiKey = true ->
  exists q k, agentDiagnoseAndHeal apiKey alert = Await q k
              /\ (forall clk, k clk Thrown = agent_failed)
              /\ (forall clk d, k clk (Parsed d) = d).
Proof.
  intros H. unfold agentDiagnoseAndHeal. rewrite H. simpl.
  eexists. eexists. split; [reflexivity|]. split; reflexivity.
Qed.

(** ** The log store *)

Lemma healEffect_logs fuel st : logs (healEffect fuel st) = logs st.
Proof.
  revert st. induction fuel as [|fuel IH]; intros st; simpl; [reflexivity|].
  destruct (filter is_active (alerts st)); [reflexivity|]. now rewrite IH.
Qed.

Lemma runHealEffect_logs st : logs (runHealEffect st) = logs st.
Proof. apply healEffect_logs. Qed.

Lemma runMonitorEffect_logs apiKey st : logs (runMonitorEffect apiKey st) = logs st.
Proof.
  unfold runMonitorEffect.
  destruct (monitorLogs apiKey (logs st) (alerts st)) as [[r|q k]|]; reflexivity.
Qed.

Lemma advance_logs clk i h st : logs (advance clk i h st) = logs st.
Proof. unfold advance. now destruct (queue h). Qed.

Lemma resolveStep_logs clk alert d s :
  exists added, snd (resolveStep clk alert d s) = snd s ++ added.
Proof.
  unfold resolveStep. destruct (success d).
  - now exists [successLog clk alert d].
  - exists []. now rewrite app_nil_r.
Qed.

(** Every event but the reset leaves the old logs in place, as a prefix
    of the new ones. *)
Lemma react_appends apiKey clk e st st' :
  e <> ResetData ->
  react apiKey clk e st = Some st' ->
  exists added, logs st' = logs st ++ added.
Proof.
  intros Hne H. destruct e; simpl in H.
  - inversion H; subst. rewrite runHealEffect_logs, runMonitorEffect_logs. simpl. eauto.
  - inversion H; subst. rewrite runHealEffect_logs, runMonitorEffect_logs. simpl. eauto.
  - inversion H; subst. rewrite runHealEffect_logs, runMonitorEffect_logs. simpl. eauto.
  - contradiction.
  - inversion H; subst. exists []. simpl. now rewrite app_nil_r.
  - inversion H; subst. exists []. simpl. now rewrite app_nil_r.
  - destruct (nth_error (monitors st) i) as [[k|]|]; try discriminate.
    inversion H; subst. rewrite runHealEffect_logs. exists []. simpl.
    now rewrite app_nil_r.
  - destruct (nth_error (healers st) i) as [h|]; [|discriminate].
    destruct (phase h) as [w|k|d w|]; try discriminate.
    + destruct (agentDiagnoseAndHeal apiKey (current h)) as [d|q k];
        inversion H; subst.
      * rewrite runHealEffect_logs. exists []. simpl. now rewrite app_nil_r.
      * exists []. simpl. now rewrite app_nil_r.
    + inversion H; subst. rewrite runHealEffect_logs.
      destruct (resolveStep_logs clk (current h) d (alerts st, logs st)) as [added E].
      exists added.
      destruct (success d);
        rewrite ?runMonitorEffect_logs, advance_logs; simpl; exact E.
  - destruct (nth_error (healers st) i) as [h|]; [|discriminate].
    destruct (phase h) as [w|k|d w|]; try discriminate.
    inversion H; subst. rewrite runHealEffect_logs. exists []. simpl.
    now rewrite app_nil_r.
Qed.

Lemma exec_run apiKey trace st st' :
  exec apiKey trace st = Some st' -> run apiKey trace st = Some st'.
Proof.
  revert st. induction trace as [|ce trace IH]; intros st H; simpl in *; [assumption|].
  unfold step in H. destruct (on_time (fst ce) (snd ce) st); [|discriminate].
  destruct (react apiKey (fst ce) (snd ce) st); [now apply IH|discriminate].
Qed.

(** ** The healing sequence *)

(** One loop iteration taken alone, on a store no other run writes to.
    When the request of [agentDiagnoseAndHeal] throws, the function still
    resolves, to the fallback object: action "Manual intervention
    required", [success = false].  The iteration then leaves the alert in
    status [healing] with that [fixAction], and the log store as it was. *)
Theorem failed_diagnosis_stalls apiKey alert clk clk' als lg :
  truthy apiKey = true ->
  exists q k,
    agentDiagnoseAndHeal apiKey alert = Await q k /\
    let diagnosis := k clk Thrown in
    action diagnosis = "Manual intervention required" /\
    success diagnosis = false /\
    let s := healOne clk' alert diagnosis (als, lg) in
    snd s = lg /\
    map a_id (fst s) = map a_id als /\
    (forall a, In a (fst s) -> a_id a = a_id alert ->
               status a = healing
               /\ fixAction a = Some "Manual intervention required") /\
    (forall s0, resolveStep clk' alert diagnosis s0 = s0) /\
    (forall st i h k0,
        nth_error (healers st) i = Some h -> phase h = Diagnosing k0 ->
        exists st', react apiKey clk (DiagnosisSettles i Thrown) st = Some st'
                    /\ logs st' = logs st).
Proof.
  intros Hkey.
  destruct (agentDiagnoseAndHeal_with_key apiKey alert Hkey) as [q [k [E [Hk _]]]].
  exists q, k. split; [exact E|]. cbv zeta. rewrite Hk.
  split; [reflexivity|]. split; [reflexivity|].
  rewrite healOne_unsuccessful by reflexivity. simpl fst. simpl snd.
  split; [reflexivity|]. split.
  - now rewrite applyPlan_ids, markHealing_ids.
  - split; [|split; [reflexivity|]].
    + intros a Hin Hid.
      destruct (stalled_alert clk' alert agent_failed als lg a eq_refl) as [H1 [H2 _]].
      * now rewrite healOne_unsuccessful.
      * assumption.
      * now split.
    + intros st i h k0 Hnth Hph. simpl. rewrite Hnth, Hph.
      eexists. split; [reflexivity|]. now rewrite runHealEffect_logs.
Qed.

Lemma failed_diagnosis_stalls_witness :
  exists q k,
    agentDiagnoseAndHeal some_key kafka_alert = Await q k /\
    let diagnosis := k (at_ms 5) Thrown in
    action diagnosis = "Manual intervention required" /\
    success diagnosis = false /\
    let s := healOne (at_ms 9) kafka_alert diagnosis ([kafka_alert], [kafka_lag]) in
    snd s = [kafka_lag] /\
    map a_id (fst s) = map a_id [kafka_alert] /\
    (forall a, In a (fst s) -> a_id a = a_id kafka_alert ->
               status a = healing
               /\ fixAction a = Some "Manual intervention required") /\
    (forall s0, resolveStep (at_ms 9) kafka_alert diagnosis s0 = s0).
Proof.
  destruct (failed_diagnosis_stalls some_key kafka_alert (at_ms 5) (at_ms 9)
              [kafka_alert] [kafka_lag] eq_refl)
    as [q [k [E [H1 [H2 [H3 [H4 [H5 [H6 _]]]]]]]]].
  exists q, k. cbv zeta.
  split; [exact E|]. split; [exact H1|]. split; [exact H2|]. split; [exact H3|].
  split; [exact H4|]. split; [exact H5|exact H6].
Defined.

(** One loop iteration taken alone, on a store no other run writes to.
    When the diagnosis has [success = true], the iteration ends with the
    alert in status [resolved], and the log store is the old one followed
    by one SUCCESS record whose message carries the title of the alert and
    the action of the diagnosis. *)
Theorem successful_diagnosis_resolves clk alert diagnosis als lg :
  success diagnosis = true ->
  let s := healOne clk alert diagnosis (als, lg) in
  (forall a, In a (fst s) -> a_id a = a_id alert -> status a = resolved) /\
  map a_id (fst s) = map a_id als /\
  (exists r, snd s = lg ++ [r] /\ level r = SUCCESS /\
             message r = ("Resolved alert: " ++ title alert ++ ". Action Taken: "
                          ++ action diagnosis)%string) /\
  (forall als' lg' a,
      In a (fst (resolveStep clk alert diagnosis (als', lg'))) ->
      a_id a = a_id alert -> status a = resolved) /\
  (forall als' lg',
      snd (resolveStep clk alert diagnosis (als', lg'))
      = lg' ++ [successLog clk alert diagnosis]).
Proof.
  intros Hs. cbv zeta. rewrite healOne_successful by assumption.
  simpl fst. simpl snd. split; [|split; [|split; [|split]]].
  - intros a Hin Hid.
    destruct (markResolved_spec _ _ _ Hin Hid) as [a1 [_ [_ ->]]]. reflexivity.
  - now rewrite markResolved_ids, applyPlan_ids, markHealing_ids.
  - exists (successLog clk alert diagnosis). repeat split.
  - intros als' lg' a Hin Hid. unfold resolveStep in Hin. rewrite Hs in Hin.
    destruct (markResolved_spec _ _ _ Hin Hid) as [a1 [_ [_ ->]]]. reflexivity.
  - intros als' lg'. unfold resolveStep. now rewrite Hs.
Qed.

Lemma successful_diagnosis_resolves_witness :
  let s := healOne (at_ms 9) kafka_alert scale_glue ([kafka_alert], [kafka_lag]) in
  (forall a, In a (fst s) -> a_id a = a_id kafka_alert -> status a = resolved) /\
  map a_id (fst s) = map a_id [kafka_alert] /\
  exists r, snd s = [kafka_lag] ++ [r] /\ level r = SUCCESS /\
            message r = "Resolved alert: Kafka lag. Action Taken: Scale Glue Workers".
Proof.
  destruct (successful_diagnosis_resolves (at_ms 9) kafka_alert scale_glue
              [kafka_alert] [kafka_lag] eq_refl) as [H1 [H2 [H3 _]]].
  split; [exact H1|]. split; [exact H2|exact H3].
Defined.

(** C5, as stated, fails: the narrative is not appended.  An alert that
    already carries a thought keeps only the new one; the execution
    [second_alert_rediagnosed] reaches that situation: the second alert
    carries its first narrative at 7300 ms and only the later one after
    11500 ms. *)
Lemma thoughts_not_appended :
  map agentThoughts (applyPlan diagnosed_alert backfill_again [diagnosed_alert])
  = [Some ["Pipe still empty"]] /\
  map agentThoughts (applyPlan diagnosed_alert backfill_again [diagnosed_alert])
  <> [option_map (fun old => old ++ [thoughts backfill_again])
                 (agentThoughts diagnosed_alert)] /\
  option_map (thoughts_of "alert-1000-1") (exec some_key fast_second_diagnosis initial)
  = Some (Some (Some ["Pipe starved by Glue"])) /\
  option_map (thoughts_of "alert-1000-1") (exec some_key second_alert_rediagnosed initial)
  = Some (Some (Some ["Pipe still empty"])).
Proof.
  split; [reflexivity|]. split; [discriminate|].
  split; vm_compute; reflexivity.
Qed.

(** C5, amended.  When the diagnosis is there, every alert of the store
    with the id of the processed alert gets [agentThoughts] set to the
    one-element list of the narrative (earlier thoughts are dropped) and
    [fixAction] set to the action; its status and the other alerts stay
    as they are.  The value of [success] plays no part. *)
Theorem plan_replaces_thoughts alert diagnosis prev :
  let next := applyPlan alert diagnosis prev in
  (forall a, In a next -> a_id a = a_id alert ->
             agentThoughts a = Some [thoughts diagnosis]
             /\ fixAction a = Some (action diagnosis)) /\
  map a_id next = map a_id prev /\
  map status next = map status prev /\
  (forall a, In a prev -> a_id a <> a_id alert -> In a next) /\
  (forall clk i h st,
      alerts (planned clk i h diagnosis st) = applyPlan (current h) diagnosis (alerts st)).
Proof.
  cbv zeta. split; [|split; [|split; [|split]]].
  - intros a Hin Hid.
    destruct (applyPlan_spec _ _ _ _ Hin Hid) as [a0 [_ [_ ->]]]. now split.
  - apply applyPlan_ids.
  - apply applyPlan_statuses.
  - intros a Hin Hne. unfold applyPlan. now apply In_map_other_id.
  - reflexivity.
Qed.

(** ** The missing key *)



Lemma plan_replaces_thoughts_witness :
  let next := applyPlan diagnosed_alert backfill_again [kafka_alert; diagnosed_alert] in
  (forall a, In a next -> a_id a = a_id diagnosed_alert ->
             agentThoughts a = Some [thoughts backfill_again]
             /\ fixAction a = Some (action backfill_again)) /\
  map a_id next = map a_id [kafka_alert; diagnosed_alert] /\
  map status next = map status [kafka_alert; diagnosed_alert] /\
  (forall a, In a [kafka_alert; diagnosed_alert] ->
             a_id a <> a_id diagnosed_alert -> In a next) /\
  (forall clk i h st,
      alerts (planned clk i h backfill_again st)
      = applyPlan (current h) backfill_again (alerts st)).
Proof.
  apply (plan_replaces_thoughts diagnosed_alert backfill_again
           [kafka_alert; diagnosed_alert]).
Defined.

(** ** The detection gate *)

Lemma hasErrors_true_iff logs :
  hasErrors logs = true <->
  exists l, In l logs /\ (level l = ERROR \/ level l = CRITICAL).
Proof.
  unfold hasErrors. rewrite existsb_exists. split.
  - intros [l [Hin Hl]]. exists l. split; [assumption|].
    destruct (level l); simpl in Hl; try discriminate; auto.
  - intros [l [Hin [Hl|Hl]]]; exists l; rewrite Hl; auto.
Qed.

Lemma hasErrors_false logs :
  (forall l, In l logs -> level l <> ERROR /\ level l <> CRITICAL) ->
  hasErrors logs = false.
Proof.
  intros H. destruct (hasErrors logs) eqn:E; [|reflexivity].
  apply hasErrors_true_iff in E as [l [Hin Hl]].
  destruct (H l Hin) as [H1 H2]. destruct Hl; contradiction.
Qed.

(** C7.  [monitorLogs] calls [analyzeForAlerts] only when some log is at
    level ERROR or CRITICAL and the alert store is empty.  With no such
    log, or with an alert in the store, the monitoring effect changes
    nothing: no alert is produced and no request is pending, whatever the
    logs are. *)
Theorem detection_gate apiKey logs0 alerts0 :
  (forall call, monitorLogs apiKey logs0 alerts0 = Some call ->
                (exists l, In l logs0 /\ (level l = ERROR \/ level l = CRITICAL))
                /\ alerts0 = []) /\
  ((forall l, In l logs0 -> level l <> ERROR /\ level l <> CRITICAL) ->
   monitorLogs apiKey logs0 alerts0 = None) /\
  (alerts0 <> [] -> monitorLogs apiKey logs0 alerts0 = None) /\
  (forall st, logs st = logs0 -> alerts st = alerts0 ->
              (forall l, In l logs0 -> level l <> ERROR /\ level l <> CRITICAL)
              \/ alerts0 <> [] ->
              runMonitorEffect apiKey st = st).
Proof.
  assert (G1 : (forall l, In l logs0 -> level l <> ERROR /\ level l <> CRITICAL) ->
               monitorLogs apiKey logs0 alerts0 = None).
  { intros H. unfold monitorLogs. rewrite (hasErrors_false _ H). simpl.
    now destruct (List.length logs0 =? 0)%nat. }
  assert (G2 : alerts0 <> [] -> monitorLogs apiKey logs0 alerts0 = None).
  { intros H. unfold monitorLogs. destruct alerts0 as [|a rest]; [contradiction|].
    simpl. rewrite andb_false_r. now destruct (List.length logs0 =? 0)%nat. }
  split; [|split; [exact G1|split; [exact G2|]]].
  - intros call H. unfold monitorLogs in H.
    destruct (List.length logs0 =? 0)%nat; [discriminate|].
    destruct (hasErrors logs0) eqn:E; simpl in H; [|discriminate].
    split; [now apply hasErrors_true_iff|].
    destruct alerts0; [reflexivity|discriminate].
  - intros st Hl Ha H. unfold runMonitorEffect. rewrite Hl, Ha.
    destruct H as [H|H]; [rewrite (G1 H)|rewrite (G2 H)]; reflexivity.
Qed.

Lemma detection_gate_witness :
  monitorLogs some_key [kafka_info; api_normal] [] = None /\
  monitorLogs some_key [glue_oom] [kafka_alert] = None.
Proof.
  split.
  - apply (proj1 (proj2 (detection_gate some_key [kafka_info; api_normal] []))).
    intros l [<-|[<-|[]]]; split; discriminate.
  - apply (proj1 (proj2 (proj2 (detection_gate some_key [glue_oom] [kafka_alert])))).
    discriminate.
Defined.

(** ** The related-logs view *)

Lemma includes_In ids x : includes ids x = true <-> In x ids.
Proof.
  unfold includes. rewrite existsb_exists. split.
  - intros [y [Hin Heq]]. apply String.eqb_eq in Heq. now subst.
  - intros Hin. exists x. split; [assumption|apply String.eqb_refl].
Qed.

(** With distinct ids, a log is picked by its id exactly when it is
    picked by the test that selected the ids. *)
Lemma includes_selected_ids (p : LogEntry -> bool) (ls : list LogEntry) :
  NoDup (map l_id ls) ->
  forall l, In l ls -> includes (map l_id (filter p ls)) (l_id l) = p l.
Proof.
  induction ls as [|x ls IH]; intros Hnd l Hin; [contradiction|].
  simpl in Hnd. inversion Hnd as [|? ? Hx Hnd']; subst.
  assert (Hfresh : forall q, includes (map l_id (filter q ls)) (l_id x) = false).
  { intros q. destruct (includes (map l_id (filter q ls)) (l_id x)) eqn:E;
      [|reflexivity].
    apply includes_In in E. apply in_map_iff in E as [y [Hy Hin']].
    apply filter_In in Hin' as [Hin' _].
    exfalso. apply Hx. rewrite <- Hy. now apply in_map. }
  destruct Hin as [->|Hin].
  - simpl. destruct (p l) eqn:Ep.
    + simpl. unfold includes. simpl. now rewrite String.eqb_refl.
    + apply Hfresh.
  - assert (Hne : String.eqb (l_id l) (l_id x) = false).
    { apply String.eqb_neq. intros Heq. apply Hx. rewrite <- Heq. now apply in_map. }
    simpl. destruct (p x).
    + simpl. unfold includes. simpl. rewrite Hne. simpl. now apply IH.
    + now apply IH.
Qed.

Lemma filter_by_selected_ids (p : LogEntry -> bool) (ls : list LogEntry) :
  NoDup (map l_id ls) ->
  filter (fun l => includes (map l_id (filter p ls)) (l_id l)) ls = filter p ls.
Proof.
  intros Hnd. apply filter_ext_in. intros l Hin. now apply includes_selected_ids.
Qed.

Lemma filter_none {A} (p : A -> bool) (l : list A) :
  (forall x, In x l -> p x = false) -> filter p l = [].
Proof.
  induction l as [|x l IH]; intros H; [reflexivity|].
  simpl. rewrite (H x (or_introl eq_refl)). apply IH.
  intros y Hy. apply H. now right.
Qed.

Lemma handleViewRelatedLogs_fallback alert ls :
  relatedLogIds alert = None \/ relatedLogIds alert = Some [] ->
  handleViewRelatedLogs alert ls
  = match filter (relevant alert) ls with
    | [] => None
    | _ => Some (map l_id (filter (relevant alert) ls))
    end.
Proof.
  intros H. unfold handleViewRelatedLogs.
  fold (relevant alert).
  change (filter (fun l => String.eqb (service l) (affectedService alert)
                           && (LogLevel_eqb (level l) ERROR
                               || LogLevel_eqb (level l) CRITICAL
                               || LogLevel_eqb (level l) WARNING)) ls)
    with (filter (relevant alert) ls).
  destruct H as [-> | ->]; now destruct (filter (relevant alert) ls).
Qed.

(** C8, as stated, fails on the fallback path when nothing matches: the
    alert has no related ids and the only log is an INFO record of
    another service, the matching records are none, yet the view returns
    the log. *)
Lemma fallback_not_exact_when_nothing_matches :
  relatedLogIds kafka_alert = Some [] /\
  filter (relevant kafka_alert) [api_normal] = [] /\
  relatedLogs kafka_alert [api_normal] = [api_normal] /\
  relatedLogs kafka_alert [api_normal] <> filter (relevant kafka_alert) [api_normal].
Proof. repeat split. discriminate. Qed.

(** C8, amended.  With related ids, the view is the logs whose id is among
    them, in store order.  Without related ids and with at least one log
    of the affected service at level WARNING, ERROR or CRITICAL, the view
    is exactly those logs, in store order, log ids being distinct as the
    data model has them. *)
Theorem related_logs_view alert ls :
  (forall i ids, relatedLogIds alert = Some (i :: ids) ->
      relatedLogs alert ls = filter (fun l => includes (i :: ids) (l_id l)) ls) /\
  (relatedLogIds alert = None \/ relatedLogIds alert = Some [] ->
   filter (relevant alert) ls <> [] ->
   NoDup (map l_id ls) ->
   relatedLogs alert ls
   = filter (fun l => String.eqb (service l) (affectedService alert)
                      && (LogLevel_eqb (level l) WARNING
                          || LogLevel_eqb (level l) ERROR
                          || LogLevel_eqb (level l) CRITICAL)) ls).
Proof.
  split.
  - intros i ids H. unfold relatedLogs, handleViewRelatedLogs. now rewrite H.
  - intros H Hne Hnd. unfold relatedLogs.
    rewrite handleViewRelatedLogs_fallback by assumption.
    destruct (filter (relevant alert) ls) as [|r rs] eqn:E; [contradiction|].
    rewrite <- E. simpl. rewrite filter_by_selected_ids by assumption.
    apply filter_ext. intros l. unfold relevant.
    destruct (level l); simpl; now rewrite ?orb_true_r, ?orb_false_r.
Qed.

Lemma related_logs_view_witness :
  relatedLogs diagnosed_alert [glue_oom; pipe_stalled; kafka_lag] = [pipe_stalled] /\
  relatedLogs kafka_alert [kafka_info; kafka_lag; api_normal] = [kafka_lag].
Proof.
  split.
  - rewrite (proj1 (related_logs_view diagnosed_alert [glue_oom; pipe_stalled; kafka_lag])
               "ent-2" [] eq_refl).
    reflexivity.
  - rewrite (proj2 (related_logs_view kafka_alert [kafka_info; kafka_lag; api_normal])).
    + reflexivity.
    + right. reflexivity.
    + discriminate.
    + repeat constructor; simpl; intuition discriminate.
Defined.

(** C9, as stated, fails on the primary path: related ids that match no
    stored log give the empty view, not the full store. *)
Lemma unmatched_ids_give_empty_view :
  relatedLogIds ghost_alert = Some ["log-404"] /\
  relatedLogs ghost_alert [glue_oom; kafka_lag] = [] /\
  relatedLogs ghost_alert [glue_oom; kafka_lag] <> [glue_oom; kafka_lag].
Proof. repeat split. discriminate. Qed.

(** C9, amended.  When the alert has no related ids and no log of the
    affected service is at level WARNING, ERROR or CRITICAL, the filter is
    cleared and the view is the full log store.  When the alert has
    related ids and none of them is the id of a stored log, the filter
    stays and the view is empty. *)
Theorem empty_filter_paths alert ls :
  (relatedLogIds alert = None \/ relatedLogIds alert = Some [] ->
   filter (relevant alert) ls = [] ->
   handleViewRelatedLogs alert ls = None /\ relatedLogs alert ls = ls) /\
  (forall i ids, relatedLogIds alert = Some (i :: ids) ->
      (forall l, In l ls -> ~ In (l_id l) (i :: ids)) ->
      handleViewRelatedLogs alert ls = Some (i :: ids) /\ relatedLogs alert ls = []).
Proof.
  split.
  - intros H E. unfold relatedLogs.
    rewrite handleViewRelatedLogs_fallback by assumption. rewrite E. now split.
  - intros i ids H Hno. unfold relatedLogs, handleViewRelatedLogs. rewrite H.
    split; [reflexivity|]. unfold displayedLogs.
    apply filter_none. intros l Hin.
    destruct (includes (i :: ids) (l_id l)) eqn:E; [|reflexivity].
    apply includes_In in E. now destruct (Hno l Hin).
Qed.

Lemma empty_filter_paths_witness :
  relatedLogs kafka_alert [api_normal; kafka_info] = [api_normal; kafka_info] /\
  relatedLogs ghost_alert [glue_oom; kafka_lag] = [].
Proof.
  split.
  - apply (empty_filter_paths kafka_alert [api_normal; kafka_info]).
    + right. reflexivity.
    + reflexivity.
  - apply (empty_filter_paths ghost_alert [glue_oom; kafka_lag]) with "log-404" [].
    + reflexivity.
    + intros l [<-|[<-|[]]] [H|[]]; discriminate.
Defined.

(** ** The self-healing effect *)

Lemma active_count_markHealing x als :
  (List.length (filter is_active (markHealing x als))
   <= List.length (filter is_active als))%nat.
Proof.
  induction als as [|a als IH]; simpl; [lia|].
  destruct (String.eqb (a_id a) (a_id x)); simpl.
  - destruct (is_active a); simpl; lia.
  - destruct (is_active a); simpl; lia.
Qed.

Lemma active_count_markHealing_lt x als a :
  In a als -> is_active a = true -> a_id a = a_id x ->
  (List.length (filter is_active (markHealing x als))
   < List.length (filter is_active als))%nat.
Proof.
  induction als as [|b als IH]; intros Hin Hact Hid; [contradiction|].
  destruct Hin as [->|Hin].
  - simpl. rewrite Hid, String.eqb_refl, Hact. simpl.
    pose proof (active_count_markHealing x als). fold (markHealing x als). lia.
  - specialize (IH Hin Hact Hid). simpl. fold (markHealing x als).
    destruct (String.eqb (a_id b) (a_id x)); simpl;
      destruct (is_active b); simpl; lia.
Qed.

(** The effect settles: with the fuel [runHealEffect] gives it, no alert
    is left active. *)
Lemma healEffect_settles fuel st :
  (List.length (filter is_active (alerts st)) <= fuel)%nat ->
  filter is_active (alerts (healEffect fuel st)) = [].
Proof.
  revert st. induction fuel as [|fuel IH]; intros st Hle; simpl.
  - destruct (filter is_active (alerts st)); [reflexivity|simpl in Hle; lia].
  - destruct (filter is_active (alerts st)) as [|alert rest] eqn:E; [assumption|].
    apply IH. simpl.
    assert (Hin : In alert (filter is_active (alerts st))) by (rewrite E; now left).
    apply filter_In in Hin as [Hin Hact].
    pose proof (active_count_markHealing_lt alert (alerts st) alert Hin Hact eq_refl).
    rewrite E in *. simpl in *. lia.
Qed.

Lemma runHealEffect_settles st :
  filter is_active (alerts (runHealEffect st)) = [].
Proof. apply healEffect_settles. unfold runHealEffect. lia. Qed.

(** [analyzeForAlerts] creates alerts in status [active] only. *)
Lemma materialize_active clk idx ds a :
  In a (materialize clk idx ds) -> status a = active.
Proof.
  revert idx. induction ds as [|d ds IH]; intros idx Hin; [contradiction|].
  destruct Hin as [<-|Hin]; [reflexivity|eauto].
Qed.

(** C1.  Two alerts are detected together.  The effect starts one run of
    [healSystem] on both and, re-run by that run's first [setAlerts], a
    second run on the alert still active.  The first run later reaches
    the second alert of its snapshot and calls [agentDiagnoseAndHeal] on
    it while the request of the second run for the same alert is still
    pending: two diagnose calls are in flight for one alert. *)
Theorem two_diagnose_calls_for_one_alert :
  option_map (fun st => map (fun h => a_id (current h)) (healers st))
             (exec some_key slow_second_diagnosis initial)
  = Some ["alert-1000-1"; "alert-1000-1"] /\
  option_map (diagnose_calls_in_flight "alert-1000-1")
             (exec some_key slow_second_diagnosis initial)
  = Some 2%nat.
Proof. split; vm_compute; reflexivity. Qed.

(** C2.  In the execution [second_alert_marked_again] the second alert is
    healing from its detection on, resolved at 7300 ms by the run started
    for it, and set back to healing at 9000 ms by the run started for
    both alerts. *)
Theorem resolved_alert_set_back_to_healing :
  statuses some_key "alert-1000-1" second_alert_marked_again initial
  = [ None; Some healing; Some healing; Some healing; Some healing;
      Some healing; Some resolved; Some healing ].
Proof. vm_compute. reflexivity. Qed.

(** ** The log store over executions *)

(** C3, as stated, fails: the reset empties the log store.  Two records
    are uploaded, then "Reset Data" is clicked. *)
Lemma reset_shrinks_log_store :
  option_map (fun st => List.length (logs st))
             (exec some_key [ (at_ms 0, FileUploaded [kafka_info; api_normal]) ] initial)
  = Some 2%nat /\
  option_map (fun st => List.length (logs st))
             (exec some_key upload_then_reset initial)
  = Some 0%nat.
Proof. split; vm_compute; reflexivity. Qed.

(** C3, amended.  Over every sequence of events without a data reset
    (uploads, scenario loads, refreshes, detections, healing steps, view
    changes, at any times), the log store only grows: the old records
    stay in place and the count does not decrease.  A data reset empties
    the log store. *)
Theorem logs_grow_without_reset apiKey trace st st' :
  Forall (fun ce => snd ce <> ResetData) trace ->
  run apiKey trace st = Some st' ->
  (exists added, logs st' = logs st ++ added) /\
  (List.length (logs st) <= List.length (logs st'))%nat /\
  (forall clk st'', react apiKey clk ResetData st' = Some st'' -> logs st'' = []).
Proof.
  intros Hall Hrun.
  assert (Hpre : exists added, logs st' = logs st ++ added).
  { revert st Hrun. induction Hall as [|ce trace Hce Hall IH]; intros st Hrun.
    - inversion Hrun; subst. exists []. now rewrite app_nil_r.
    - simpl in Hrun.
      destruct (react apiKey (fst ce) (snd ce) st) as [st1|] eqn:E; [|discriminate].
      destruct (react_appends _ _ _ _ _ Hce E) as [a1 E1].
      destruct (IH st1 Hrun) as [a2 E2].
      exists (a1 ++ a2). now rewrite E2, E1, app_assoc. }
  split; [exact Hpre|]. split.
  - destruct Hpre as [added ->]. rewrite length_app. lia.
  - intros clk st'' H. simpl in H.
    destruct (0 <? List.length (logs st'))%nat; [|discriminate].
    inversion H; subst.
    now rewrite runHealEffect_logs, runMonitorEffect_logs.
Qed.

Lemma logs_grow_without_reset_witness :
  (exists added, logs after_refresh = logs initial ++ added) /\
  (List.length (logs initial) <= List.length (logs after_refresh))%nat.
Proof.
  destruct (logs_grow_without_reset some_key upload_then_refresh initial
              after_refresh) as [H1 [H2 _]].
  - repeat constructor; discriminate.
  - reflexivity.
  - split; assumption.
Defined.

(** * Further properties of the code *)

(** ** Decimal rendering and generated identifiers *)

Lemma show_nat_inj n m : show_nat n = show_nat m -> n = m.
Proof.
  unfold show_nat. intros H.
  assert (Hnn : forall k, Nat.to_uint k <> Decimal.Nil).
  { intros k. pose proof (DecimalNat.Unsigned.to_of (Nat.to_uint k)) as E.
    rewrite DecimalNat.Unsigned.of_to in E. rewrite E.
    apply DecimalFacts.unorm_nonnil. }
  apply (f_equal NilZero.uint_of_string) in H.
  rewrite !NilZero.usu in H by apply Hnn. injection H as H.
  now apply DecimalNat.Unsigned.to_uint_inj.
Qed.

Lemma append_inj_l (p s t : string) : (p ++ s = p ++ t)%string -> s = t.
Proof.
  induction p as [|c p IH]; simpl; intros H; [assumption|].
  injection H as H. auto.
Qed.

Lemma string_app_assoc (a b c : string) :
  ((a ++ b) ++ c = a ++ (b ++ c))%string.
Proof. induction a as [|x a IH]; simpl; [reflexivity|now rewrite IH]. Qed.

Lemma materialize_length clk idx ds :
  List.length (materialize clk idx ds) = List.length ds.
Proof.
  revert idx. induction ds as [|d ds IH]; intros idx; simpl; [reflexivity|].
  now rewrite IH.
Qed.

(** The ids of a batch carry the indices from [idx] on. *)
Lemma materialize_ids clk idx ds :
  map a_id (materialize clk idx ds)
  = map (fun i => ("alert-" ++ show_Z (now clk) ++ "-" ++ show_nat i)%string)
        (seq idx (List.length ds)).
Proof.
  revert idx. induction ds as [|d ds IH]; intros idx; simpl; [reflexivity|].
  now rewrite IH.
Qed.

Lemma indexed_ids_NoDup (prefix : string) start len :
  NoDup (map (fun i => (prefix ++ show_nat i)%string) (seq start len)).
Proof.
  apply Finite.Injective_map_NoDup; [|apply seq_NoDup].
  intros i j H. apply append_inj_l in H. now apply show_nat_inj.
Qed.

Lemma materialize_NoDup clk idx ds :
  NoDup (map a_id (materialize clk idx ds)).
Proof.
  rewrite materialize_ids.
  assert (E : forall i,
             ("alert-" ++ show_Z (now clk) ++ "-" ++ show_nat i)%string
             = (("alert-" ++ show_Z (now clk) ++ "-") ++ show_nat i)%string).
  { intros i. now rewrite !string_app_assoc. }
  rewrite (map_ext _ _ E). apply indexed_ids_NoDup.
Qed.

Lemma materialize_nth clk idx ds i d :
  nth_error ds i = Some d ->
  exists a, nth_error (materialize clk idx ds) i = Some a
            /\ a_id a = ("alert-" ++ show_Z (now clk) ++ "-" ++ show_nat (idx + i))%string
            /\ title a = d_title d /\ description a = d_description d
            /\ severity a = d_severity d /\ affectedService a = d_affectedService d
            /\ relatedLogIds a = d_relatedLogIds d
            /\ a_timestamp a = iso clk
            /\ status a = active /\ agentThoughts a = Some [] /\ fixAction a = None.
Proof.
  revert idx i. induction ds as [|d0 ds IH]; intros idx i H.
  - destruct i; discriminate.
  - destruct i as [|i]; simpl in H.
    + injection H as ->. eexists. split; [reflexivity|]. simpl.
      rewrite Nat.add_0_r. repeat split.
    + destruct (IH (S idx) i H) as [a [Hn Ha]]. exists a. split; [exact Hn|].
      now rewrite <- Nat.add_succ_comm.
Qed.

(** ** [analyzeForAlerts] *)

Lemma filter_empty_existsb {A} (p : A -> bool) (l : list A) :
  (List.length (filter p l) =? 0)%nat = negb (existsb p l).
Proof.
  induction l as [|x l IH]; simpl; [reflexivity|].
  destruct (p x); simpl; [reflexivity|assumption].
Qed.

Lemma problematic_levels l :
  problematic l = true <-> level l = ERROR \/ level l = CRITICAL \/ level l = WARNING.
Proof.
  unfold problematic. destruct (level l); simpl; split; intros H;
    try reflexivity; try discriminate; auto;
    destruct H as [H|[H|H]]; discriminate.
Qed.

Lemma analyzeForAlerts_cases apiKey ls :
  (truthy apiKey && existsb problematic ls = false
   /\ analyzeForAlerts apiKey ls = Ret [])
  \/ (truthy apiKey && existsb problematic ls = true
      /\ analyzeForAlerts apiKey ls
         = Await (filter problematic ls)
                 (fun clk o => match o with
                               | Parsed ds => materialize clk 0 ds
                               | Thrown => []
                               end)).
Proof.
  unfold analyzeForAlerts. destruct (truthy apiKey); simpl; [|now left].
  destruct ls as [|l ls]; [now left|].
  cbn [List.length Nat.eqb]. rewrite filter_empty_existsb.
  destruct (existsb problematic (l :: ls)); simpl; [now right|now left].
Qed.

(** X1.  [analyzeForAlerts] sends a request exactly when a key is set and
    some log is at level WARNING, ERROR or CRITICAL; otherwise it returns
    the empty list at once.  The request carries those logs, all of them
    and no others, in store order. *)
Theorem analyzeForAlerts_request apiKey ls :
  calls_service (analyzeForAlerts apiKey ls)
  = truthy apiKey && existsb problematic ls /\
  (calls_service (analyzeForAlerts apiKey ls) = false ->
   analyzeForAlerts apiKey ls = Ret []) /\
  (forall q k, analyzeForAlerts apiKey ls = Await q k ->
      q = filter problematic ls /\ q <> [] /\
      (forall l, In l q <->
                 In l ls /\ (level l = ERROR \/ level l = CRITICAL \/ level l = WARNING))).
Proof.
  destruct (analyzeForAlerts_cases apiKey ls) as [[Hb E]|[Hb E]]; rewrite E, Hb.
  - split; [reflexivity|]. split; [reflexivity|]. intros q k H. discriminate.
  - split; [reflexivity|]. split; [discriminate|].
    intros q k H. injection H as <- _.
    split; [reflexivity|]. split.
    + apply andb_prop in Hb as [_ Hb]. apply existsb_exists in Hb as [l [Hin Hp]].
      intros Hnil. assert (Hq : In l (filter problematic ls)) by (apply filter_In; auto).
      rewrite Hnil in Hq. contradiction.
    + intros l. rewrite filter_In, problematic_levels. reflexivity.
Qed.

Lemma analyzeForAlerts_request_witness :
  exists k, analyzeForAlerts some_key [kafka_info; kafka_lag; glue_oom; api_normal]
            = Await [kafka_lag; glue_oom] k.
Proof.
  destruct (analyzeForAlerts some_key [kafka_info; kafka_lag; glue_oom; api_normal])
    as [r|q k] eqn:E; [discriminate|].
  exists k.
  destruct (proj2 (proj2 (analyzeForAlerts_request some_key
                            [kafka_info; kafka_lag; glue_oom; api_normal])) q k E)
    as [-> _].
  reflexivity.
Defined.

(** X2.  When the request of [analyzeForAlerts] throws, the result is the
    empty list.  When it yields drafts, there is one alert per draft, in
    order; the [i]-th has the id "alert-<now>-<i>", the title,
    description, severity, service and related ids of its draft, status
    [active], no thoughts and no fix action; the ids of the batch are
    pairwise distinct. *)
Theorem analyzeForAlerts_result apiKey ls q k clk :
  analyzeForAlerts apiKey ls = Await q k ->
  k clk Thrown = [] /\
  forall ds,
    List.length (k clk (Parsed ds)) = List.length ds /\
    NoDup (map a_id (k clk (Parsed ds))) /\
    (forall i d, nth_error ds i = Some d ->
       exists a, nth_error (k clk (Parsed ds)) i = Some a
                 /\ a_id a = ("alert-" ++ show_Z (now clk) ++ "-" ++ show_nat i)%string
                 /\ title a = d_title d /\ description a = d_description d
                 /\ severity a = d_severity d
                 /\ affectedService a = d_affectedService d
                 /\ relatedLogIds a = d_relatedLogIds d
                 /\ a_timestamp a = iso clk
                 /\ status a = active /\ agentThoughts a = Some []
                 /\ fixAction a = None).
Proof.
  intros H.
  destruct (analyzeForAlerts_cases apiKey ls) as [[_ E]|[_ E]];
    rewrite E in H; [discriminate|].
  injection H as _ <-. split; [reflexivity|].
  intros ds. split; [apply materialize_length|]. split; [apply materialize_NoDup|].
  intros i d Hn. apply (materialize_nth clk 0 ds i d Hn).
Qed.

Lemma analyzeForAlerts_result_witness :
  exists q k,
    analyzeForAlerts some_key [glue_oom; pipe_stalled] = Await q k /\
    map a_id (k (at_ms 1000) (Parsed [draft_glue; draft_pipe]))
    = ["alert-1000-0"; "alert-1000-1"] /\
    NoDup (map a_id (k (at_ms 1000) (Parsed [draft_glue; draft_pipe]))).
Proof.
  destruct (analyzeForAlerts some_key [glue_oom; pipe_stalled]) as [r|q k] eqn:E;
    [discriminate|].
  exists q, k. split; [reflexivity|].
  destruct (analyzeForAlerts_result some_key [glue_oom; pipe_stalled] q k
              (at_ms 1000) E) as [_ H].
  destruct (H [draft_glue; draft_pipe]) as [_ [Hnd _]].
  split; [|exact Hnd].
  injection E as _ <-. reflexivity.
Defined.

(** ** [parseRawLogs] *)

Lemma substring_prefix m s :
  exists rest, s = (String.substring 0 m s ++ rest)%string
               /\ String.length (String.substring 0 m s)
                  = Nat.min m (String.length s).
Proof.
  revert s. induction m as [|m IH]; intros s.
  - exists s. destruct s; simpl; auto.
  - destruct s as [|c s]; simpl.
    + exists EmptyString. auto.
    + destruct (IH s) as [rest [E L]]. exists rest. split.
      * simpl. now rewrite <- E.
      * now rewrite L.
Qed.

Lemma substring_short m s :
  (String.length s <= m)%nat -> String.substring 0 m s = s.
Proof.
  revert s. induction m as [|m IH]; intros s H.
  - destruct s; [reflexivity|simpl in H; lia].
  - destruct s as [|c s]; simpl; [reflexivity|].
    rewrite IH; [reflexivity|simpl in H; lia].
Qed.

Lemma split_lines_nonempty s : split_lines s <> [].
Proof.
  destruct s as [|c s]; simpl; [discriminate|].
  destruct (Ascii.eqb c newline); [discriminate|].
  destruct (split_lines s); discriminate.
Qed.

(** Joining the pieces with newlines gives the text back. *)
Lemma split_lines_join s : String.concat (String newline EmptyString) (split_lines s) = s.
Proof.
  induction s as [|c s IH]; [reflexivity|].
  simpl split_lines. destruct (Ascii.eqb c newline) eqn:E.
  - apply Ascii.eqb_eq in E. subst c.
    pose proof (split_lines_nonempty s) as Hne.
    destruct (split_lines s) as [|p ps]; [contradiction|].
    change (String.concat (String newline "") ("" :: p :: ps))
      with (String newline (String.concat (String newline "") (p :: ps))).
    now rewrite IH.
  - pose proof (split_lines_nonempty s) as Hne.
    destruct (split_lines s) as [|p ps]; [contradiction|].
    destruct ps as [|p' ps]; simpl in *; now rewrite <- IH.
Qed.

(** No piece contains a newline. *)
Lemma split_lines_no_newline s piece :
  In piece (split_lines s) -> ~ In newline (list_ascii_of_string piece).
Proof.
  revert piece. induction s as [|c s IH]; intros piece Hin.
  - destruct Hin as [<-|[]]. intros [].
  - simpl in Hin. destruct (Ascii.eqb c newline) eqn:E.
    + destruct Hin as [<-|Hin]; [intros []|auto].
    + pose proof (split_lines_nonempty s) as Hne.
      destruct (split_lines s) as [|p ps]; [contradiction|].
      destruct Hin as [<-|Hin]; [|apply IH; now right].
      specialize (IH p (or_introl eq_refl)).
      simpl. intros [Hc|Hc]; [|contradiction].
      subst c. now rewrite Ascii.eqb_refl in E.
Qed.

Lemma number_lines_length clk rawText idx ps :
  List.length (number_lines clk rawText idx ps) = List.length ps.
Proof.
  revert idx. induction ps as [|p ps IH]; intros idx; simpl; [reflexivity|].
  now rewrite IH.
Qed.

Lemma number_lines_ids clk rawText idx ps :
  map l_id (number_lines clk rawText idx ps)
  = map (fun i => ("parsed-" ++ show_Z (now clk) ++ "-" ++ show_nat i)%string)
        (seq idx (List.length ps)).
Proof.
  revert idx. induction ps as [|p ps IH]; intros idx; simpl; [reflexivity|].
  now rewrite IH.
Qed.

Lemma number_lines_NoDup clk rawText idx ps :
  NoDup (map l_id (number_lines clk rawText idx ps)).
Proof.
  rewrite number_lines_ids.
  assert (E : forall i,
             ("parsed-" ++ show_Z (now clk) ++ "-" ++ show_nat i)%string
             = (("parsed-" ++ show_Z (now clk) ++ "-") ++ show_nat i)%string).
  { intros i. now rewrite !string_app_assoc. }
  rewrite (map_ext _ _ E). apply indexed_ids_NoDup.
Qed.

Lemma number_lines_nth clk rawText idx ps i p :
  nth_error ps i = Some p ->
  exists l, nth_error (number_lines clk rawText idx ps) i = Some l
            /\ l_id l = ("parsed-" ++ show_Z (now clk) ++ "-" ++ show_nat (idx + i))%string
            /\ l_timestamp l = pl_timestamp p /\ service l = pl_service p
            /\ level l = pl_level p /\ message l = pl_message p
            /\ raw l = Some (nth (idx + i) (split_lines rawText) EmptyString).
Proof.
  revert idx i. induction ps as [|p0 ps IH]; intros idx i H.
  - destruct i; discriminate.
  - destruct i as [|i]; simpl in H.
    + injection H as ->. eexists. split; [reflexivity|]. simpl.
      rewrite Nat.add_0_r. repeat split.
    + destruct (IH (S idx) i H) as [l [Hn Hl]]. exists l. split; [exact Hn|].
      now rewrite <- Nat.add_succ_comm.
Qed.

(** X3.  Without a key [parseRawLogs] returns the empty list and sends
    nothing.  With a key, the text it sends is a prefix of the raw text of
    at most 10000 characters: the whole text when that is no longer than
    10000. *)
Theorem parseRawLogs_request apiKey rawText :
  (truthy apiKey = false -> parseRawLogs apiKey rawText = Ret []) /\
  (truthy apiKey = true -> calls_service (parseRawLogs apiKey rawText) = true) /\
  (forall q k, parseRawLogs apiKey rawText = Await q k ->
     (exists rest, rawText = (q ++ rest)%string) /\
     Z.of_nat (String.length q) = Z.min 10000 (Z.of_nat (String.length rawText)) /\
     (Z.of_nat (String.length rawText) <= 10000 -> q = rawText)).
Proof.
  unfold parseRawLogs. destruct (truthy apiKey); cbv [negb calls_service].
  - split; [discriminate|]. split; [reflexivity|].
    intros q k H.
    assert (Hq : q = String.substring 0 (Z.to_nat 10000) rawText) by congruence.
    subst q. clear H.
    destruct (substring_prefix (Z.to_nat 10000) rawText) as [rest [E L]].
    split; [now exists rest|]. split.
    + rewrite L. lia.
    + intros Hle. apply substring_short. lia.
  - split; [reflexivity|]. split; [discriminate|]. intros q k H. discriminate.
Qed.

Lemma parseRawLogs_request_witness :
  parseRawLogs None two_raw_lines = Ret [] /\
  exists k, parseRawLogs some_key two_raw_lines = Await two_raw_lines k.
Proof.
  split.
  - apply (proj1 (parseRawLogs_request None two_raw_lines)). reflexivity.
  - destruct (parseRawLogs some_key two_raw_lines) as [r|q k] eqn:E; [discriminate|].
    exists k.
    destruct (proj2 (proj2 (parseRawLogs_request some_key two_raw_lines)) q k E)
      as [_ [_ H]].
    rewrite H; [reflexivity|]. vm_compute. discriminate.
Defined.

(** X4.  When the request of [parseRawLogs] throws, the result is the
    empty list.  When it yields records, there is one log entry per
    record, in order; the [i]-th has the id "parsed-<now>-<i>", the
    timestamp, service, level and message of its record, and as [raw] the
    [i]-th line of the full raw text, or the empty string when the text
    has no such line; the ids are pairwise distinct. *)
Theorem parseRawLogs_result apiKey rawText q k clk :
  parseRawLogs apiKey rawText = Await q k ->
  k clk Thrown = [] /\
  forall ps,
    List.length (k clk (Parsed ps)) = List.length ps /\
    NoDup (map l_id (k clk (Parsed ps))) /\
    (forall i p, nth_error ps i = Some p ->
       exists l, nth_error (k clk (Parsed ps)) i = Some l
                 /\ l_id l = ("parsed-" ++ show_Z (now clk) ++ "-" ++ show_nat i)%string
                 /\ l_timestamp l = pl_timestamp p /\ service l = pl_service p
                 /\ level l = pl_level p /\ message l = pl_message p
                 /\ raw l = Some (nth i (split_lines rawText) EmptyString)).
Proof.
  unfold parseRawLogs. destruct (truthy apiKey); cbv [negb]; intros H; [|discriminate].
  injection H as _ <-. split; [reflexivity|].
  intros ps. split; [apply number_lines_length|]. split; [apply number_lines_NoDup|].
  intros i p Hn. apply (number_lines_nth clk rawText 0 ps i p Hn).
Qed.

Lemma parseRawLogs_result_witness :
  exists q k,
    parseRawLogs some_key two_raw_lines = Await q k /\
    map raw (k (at_ms 42) (Parsed parsed_lines))
    = [ Some "2024-01-01 ERROR glue: job failed";
        Some "2024-01-01 INFO kafka: ok"; Some "" ] /\
    map l_id (k (at_ms 42) (Parsed parsed_lines))
    = [ "parsed-42-0"; "parsed-42-1"; "parsed-42-2" ] /\
    NoDup (map l_id (k (at_ms 42) (Parsed parsed_lines))).
Proof.
  destruct (parseRawLogs some_key two_raw_lines) as [r|q k] eqn:E; [discriminate|].
  exists q, k. split; [reflexivity|].
  destruct (parseRawLogs_result some_key two_raw_lines q k (at_ms 42) E) as [_ H].
  destruct (H parsed_lines) as [_ [Hnd _]].
  injection E as _ <-. split; [reflexivity|]. split; [reflexivity|exact Hnd].
Defined.

(** ** [streamChatResponse] and the dashboard counters *)

Lemma slice_last_suffix {A} n (l : list A) :
  (exists older, l = older ++ slice_last n l) /\
  List.length (slice_last n l) = Nat.min n (List.length l).
Proof.
  unfold slice_last. split.
  - exists (firstn (List.length l - n) l). now rewrite firstn_skipn.
  - rewrite length_skipn. lia.
Qed.

(** X5.  Without a key [streamChatResponse] throws "API Key missing"
    before any request.  With a key it opens the chat with the given
    history and message and a context in which: the active alerts are the
    alerts not resolved, in order, and the active count is their number;
    the failure logs are the logs at level WARNING, ERROR or CRITICAL; the
    recent logs are the last ten logs, or all of them when there are
    fewer; the total is the number of logs. *)
Theorem chat_context apiKey history msg ls als :
  (truthy apiKey = false ->
   streamChatResponse apiKey history msg ls als = ChatThrows "API Key missing") /\
  (truthy apiKey = true ->
   exists ctx,
     streamChatResponse apiKey history msg ls als = ChatSends ctx history msg /\
     cc_activeCount ctx = List.length (cc_activeAlerts ctx) /\
     (forall a, In a (cc_activeAlerts ctx) <-> In a als /\ status a <> resolved) /\
     (forall l, In l (cc_errorLogs ctx) <->
                In l ls /\ (level l = ERROR \/ level l = CRITICAL \/ level l = WARNING)) /\
     (exists older, ls = older ++ cc_recentLogs ctx) /\
     List.length (cc_recentLogs ctx) = Nat.min 10 (List.length ls) /\
     cc_totalLogs ctx = List.length ls).
Proof.
  unfold streamChatResponse. split; intros ->; simpl; [reflexivity|].
  eexists. split; [reflexivity|]. simpl. split; [reflexivity|]. split; [|split].
  - intros a. rewrite filter_In. unfold unresolved.
    destruct (status a); simpl; split; intros [H1 H2]; split;
      try assumption; try reflexivity; try discriminate; try congruence.
  - intros l. rewrite filter_In, problematic_levels. reflexivity.
  - destruct (slice_last_suffix 10 ls) as [H1 H2]. auto.
Qed.

Lemma chat_context_witness :
  streamChatResponse None [] "status?" [glue_oom] [kafka_alert]
  = ChatThrows "API Key missing" /\
  exists ctx,
    streamChatResponse some_key [] "status?" [kafka_info; glue_oom]
                       [kafka_alert; diagnosed_alert]
    = ChatSends ctx [] "status?" /\
    cc_activeCount ctx = List.length (cc_activeAlerts ctx).
Proof.
  split.
  - apply (proj1 (chat_context None [] "status?" [glue_oom] [kafka_alert])).
    reflexivity.
  - destruct (proj2 (chat_context some_key [] "status?" [kafka_info; glue_oom]
                       [kafka_alert; diagnosed_alert]) eq_refl)
      as [ctx [H1 [H2 _]]].
    exists ctx. split; assumption.
Defined.

(** X6.  The dashboard counters partition the stores: every log is
    counted once among errors (ERROR, CRITICAL), warnings and successes
    (SUCCESS, INFO); every alert is counted once among active and
    resolved; and the active count is the one the chat context
    reports. *)
Theorem stats_partition ls als :
  (errorCount (stats ls als) + warnCount (stats ls als)
   + successCount (stats ls als) = List.length ls)%nat /\
  (activeAlerts (stats ls als) + resolvedAlerts (stats ls als)
   = List.length als)%nat /\
  activeAlerts (stats ls als) = cc_activeCount (chatContext ls als).
Proof.
  split; [|split].
  - simpl. induction ls as [|l ls IH]; [reflexivity|].
    simpl. destruct (level l); simpl; lia.
  - simpl. induction als as [|a als IH]; [reflexivity|].
    simpl. destruct (Status_eqb (status a) resolved); simpl; lia.
  - reflexivity.
Qed.

(** ** The component over executions *)

Lemma react_settled apiKey clk e st st' :
  settled st -> react apiKey clk e st = Some st' -> settled st'.
Proof.
  unfold settled. intros Hs H. destruct e; simpl in H.
  - inversion H; subst. apply runHealEffect_settles.
  - inversion H; subst. apply runHealEffect_settles.
  - inversion H; subst. apply runHealEffect_settles.
  - destruct (0 <? List.length (logs st))%nat; [|discriminate].
    inversion H; subst. apply runHealEffect_settles.
  - inversion H; subst. exact Hs.
  - inversion H; subst. exact Hs.
  - destruct (nth_error (monitors st) i) as [[k|]|]; try discriminate.
    inversion H; subst. apply runHealEffect_settles.
  - destruct (nth_error (healers st) i) as [h|]; [|discriminate].
    destruct (phase h) as [w|k|d w|]; try discriminate.
    + destruct (agentDiagnoseAndHeal apiKey (current h)) as [d|q k];
        inversion H; subst; [apply runHealEffect_settles|exact Hs].
    + inversion H; subst. apply runHealEffect_settles.
  - destruct (nth_error (healers st) i) as [h|]; [|discriminate].
    destruct (phase h) as [w|k|d w|]; try discriminate.
    inversion H; subst. apply runHealEffect_settles.
Qed.

(** X7.  After any sequence of events, at any times, no alert of the
    store is left in status [active]: the self-healing effect has marked
    every detected alert [healing] before the next event is handled. *)
Theorem no_alert_left_active apiKey trace st st' :
  settled st ->
  run apiKey trace st = Some st' ->
  forall a, In a (alerts st') -> status a <> active.
Proof.
  intros Hs Hrun.
  assert (Hs' : settled st').
  { revert st Hs Hrun. induction trace as [|ce trace IH]; intros st Hs Hrun.
    - inversion Hrun; now subst.
    - simpl in Hrun.
      destruct (react apiKey (fst ce) (snd ce) st) as [st1|] eqn:E; [|discriminate].
      apply (IH st1); [|assumption]. eapply react_settled; eassumption. }
  intros a Hin Hact. unfold settled in Hs'.
  assert (Hf : In a (filter is_active (alerts st'))).
  { apply filter_In. split; [assumption|]. unfold is_active. now rewrite Hact. }
  rewrite Hs' in Hf. contradiction.
Qed.

Lemma no_alert_left_active_witness :
  exists st',
    run some_key two_alerts_detected initial = Some st' /\
    List.length (alerts st') = 2%nat /\
    Forall (fun a => status a <> active) (alerts st').
Proof.
  destruct (run some_key two_alerts_detected initial) as [st'|] eqn:E;
    [|vm_compute in E; discriminate E].
  exists st'. split; [reflexivity|]. split.
  - vm_compute in E. injection E as <-. reflexivity.
  - apply Forall_forall.
    apply (no_alert_left_active some_key two_alerts_detected initial st').
    + reflexivity.
    + exact E.
Defined.

Lemma healEffect_idle fuel st : alerts st = [] -> healEffect fuel st = st.
Proof. intros H. destruct fuel; simpl; [reflexivity|]. now rewrite H. Qed.

Lemma analyzeForAlerts_no_key apiKey ls :
  truthy apiKey = false -> analyzeForAlerts apiKey ls = Ret [].
Proof. intros H. unfold analyzeForAlerts. now rewrite H. Qed.

Lemma runMonitorEffect_no_key apiKey st :
  truthy apiKey = false -> idle st -> idle (runMonitorEffect apiKey st).
Proof.
  intros Hk [Ha [Hm Hh]]. unfold runMonitorEffect, monitorLogs.
  rewrite (analyzeForAlerts_no_key _ _ Hk).
  destruct (List.length (logs st) =? 0)%nat; [now repeat split|].
  destruct (hasErrors (logs st) && (List.length (alerts st) =? 0)%nat);
    now repeat split.
Qed.

Lemma runHealEffect_idle st : idle st -> runHealEffect st = st.
Proof. intros [Ha _]. apply healEffect_idle. exact Ha. Qed.

Lemma react_idle apiKey clk e st st' :
  truthy apiKey = false -> idle st -> react apiKey clk e st = Some st' -> idle st'.
Proof.
  intros Hk Hi H.
  assert (Hc : idle (set_clock (now clk) st)) by exact Hi.
  assert (Hlog : forall l, idle (runHealEffect (runMonitorEffect apiKey
                                    (set_logs l (set_clock (now clk) st))))).
  { intros l.
    assert (Hm : idle (runMonitorEffect apiKey (set_logs l (set_clock (now clk) st)))).
    { apply runMonitorEffect_no_key; [assumption|exact Hi]. }
    now rewrite (runHealEffect_idle _ Hm). }
  destruct Hi as [Ha [Hm Hh]].
  destruct e; simpl in H.
  - inversion H; subst. apply Hlog.
  - inversion H; subst. apply Hlog.
  - inversion H; subst. apply Hlog.
  - destruct (0 <? List.length (logs st))%nat; [|discriminate].
    inversion H; subst.
    assert (Hm' : idle (runMonitorEffect apiKey
                          (set_alerts [] (set_logs [] (set_clock (now clk) st))))).
    { apply runMonitorEffect_no_key; [assumption|]. now repeat split. }
    now rewrite (runHealEffect_idle _ Hm').
  - inversion H; subst. now repeat split.
  - inversion H; subst. now repeat split.
  - rewrite Hm in H. destruct i; discriminate.
  - rewrite Hh in H. destruct i; discriminate.
  - rewrite Hh in H. destruct i; discriminate.
Qed.

(** X8.  Without a key nothing is ever detected or healed: over any
    sequence of events from the initial state the alert store stays
    empty, no request is pending and no run of [healSystem] exists. *)
Theorem no_key_no_incident apiKey trace st' :
  truthy apiKey = false ->
  run apiKey trace initial = Some st' ->
  alerts st' = [] /\ monitors st' = [] /\ healers st' = [].
Proof.
  intros Hk. assert (Hi : idle initial) by now repeat split.
  revert Hi. generalize initial as st.
  induction trace as [|ce trace IH]; intros st Hi Hrun.
  - inversion Hrun; now subst.
  - simpl in Hrun.
    destruct (react apiKey (fst ce) (snd ce) st) as [st1|] eqn:E; [|discriminate].
    apply (IH st1); [|assumption]. eapply react_idle; eassumption.
Qed.

Lemma no_key_no_incident_witness :
  alerts (set_logs [glue_oom; pipe_stalled] initial) = [] /\
  monitors (set_logs [glue_oom; pipe_stalled] initial) = [] /\
  healers (set_logs [glue_oom; pipe_stalled] initial) = [].
Proof.
  apply (no_key_no_incident None [(at_ms 0, FileUploaded [glue_oom; pipe_stalled])]
           (set_logs [glue_oom; pipe_stalled] initial)).
  - reflexivity.
  - reflexivity.
Defined.

(** X9.  Of all the events, only a timer of a run that is past a
    successful diagnosis and the three ingestion events write to the log
    store.  A detection result, a diagnosis result and the view changes
    leave the logs as they are; a timer appends the SUCCESS record of its
    run when the diagnosis succeeded and nothing otherwise. *)
Theorem agent_log_writes apiKey clk e st st' :
  react apiKey clk e st = Some st' ->
  match e with
  | AlertsProposed _ _ | DiagnosisSettles _ _
  | ViewRelatedLogs _ | ClearLogFilter => logs st' = logs st
  | TimerFires i =>
      logs st' = logs st ++ timer_log clk i st /\
      (forall l, In l (timer_log clk i st) ->
                 level l = SUCCESS /\ service l = "Sentinel-Agent")
  | FileUploaded added | EnterpriseScenario added => logs st' = logs st ++ added
  | Refresh => logs st' = logs st ++ [heartbeat clk]
  | ResetData => logs st' = []
  end.
Proof.
  intros H. destruct e; simpl in H.
  - inversion H; subst. now rewrite runHealEffect_logs, runMonitorEffect_logs.
  - inversion H; subst. now rewrite runHealEffect_logs, runMonitorEffect_logs.
  - inversion H; subst. now rewrite runHealEffect_logs, runMonitorEffect_logs.
  - destruct (0 <? List.length (logs st))%nat; [|discriminate].
    inversion H; subst. now rewrite runHealEffect_logs, runMonitorEffect_logs.
  - inversion H; subst. reflexivity.
  - inversion H; subst. reflexivity.
  - destruct (nth_error (monitors st) i) as [[k|]|]; try discriminate.
    inversion H; subst. now rewrite runHealEffect_logs.
  - unfold timer_log.
    destruct (nth_error (healers st) i) as [h|]; [|discriminate].
    destruct (phase h) as [w|k|d w|]; try discriminate.
    + split; [|intros l []].
      destruct (agentDiagnoseAndHeal apiKey (current h)) as [d|q k];
        inversion H; subst; rewrite ?runHealEffect_logs; simpl;
        now rewrite app_nil_r.
    + inversion H; subst. rewrite runHealEffect_logs. unfold resolveStep.
      destruct (success d); split.
      * now rewrite runMonitorEffect_logs, advance_logs.
      * intros l [<-|[]]. now split.
      * rewrite advance_logs. simpl. now rewrite app_nil_r.
      * intros l [].
  - destruct (nth_error (healers st) i) as [h|]; [|discriminate].
    destruct (phase h) as [w|k|d w|]; try discriminate.
    inversion H; subst. now rewrite runHealEffect_logs.
Qed.

Lemma agent_log_writes_witness :
  logs after_refresh = logs (set_logs [kafka_info; api_normal] initial)
                       ++ [heartbeat (at_ms 900)].
Proof.
  apply (agent_log_writes some_key (at_ms 900) Refresh
           (set_logs [kafka_info; api_normal] initial) after_refresh).
  reflexivity.
Defined.

(** ** What the self-healing effect starts *)

Lemma markHealing_fresh a als :
  ~ In (a_id a) (map a_id als) -> markHealing a als = als.
Proof.
  induction als as [|x als IH]; intros Hn; [reflexivity|].
  simpl. destruct (String.eqb (a_id x) (a_id a)) eqn:E.
  - apply String.eqb_eq in E. exfalso. apply Hn. left. assumption.
  - f_equal. apply IH. intros H. apply Hn. now right.
Qed.

Lemma first_active_split als a rest :
  NoDup (map a_id als) -> filter is_active als = a :: rest ->
  filter is_active (markHealing a als) = rest /\
  map heal_if_active (markHealing a als) = map heal_if_active als.
Proof.
  induction als as [|x als IH]; intros Hnd E; [discriminate|].
  simpl in Hnd. inversion Hnd as [|? ? Hx Hnd']; subst.
  simpl in E. destruct (is_active x) eqn:Hact.
  - injection E as -> E. simpl. rewrite String.eqb_refl.
    rewrite (markHealing_fresh a als Hx). simpl. split; [assumption|].
    unfold heal_if_active at 1 3. rewrite Hact. reflexivity.
  - assert (Hin : In a als).
    { assert (H : In a (filter is_active als)) by (rewrite E; now left).
      now apply filter_In in H. }
    assert (Hne : String.eqb (a_id x) (a_id a) = false).
    { apply String.eqb_neq. intros Heq. apply Hx. rewrite Heq. now apply in_map. }
    destruct (IH Hnd' E) as [H1 H2].
    simpl. rewrite Hne. simpl. rewrite Hact. fold (markHealing a als).
    split; [assumption|]. now rewrite H2.
Qed.

Lemma heal_if_active_settled als :
  filter is_active als = [] -> map heal_if_active als = als.
Proof.
  induction als as [|x als IH]; intros E; [reflexivity|].
  simpl in E. destruct (is_active x) eqn:Hx; [discriminate|].
  simpl. rewrite (IH E). unfold heal_if_active. now rewrite Hx.
Qed.

Lemma healEffect_fan_out fuel st :
  NoDup (map a_id (alerts st)) ->
  (List.length (filter is_active (alerts st)) <= fuel)%nat ->
  healEffect fuel st
  = set_healers (healers st ++ suffix_runs (clock st) (filter is_active (alerts st)))
                (set_alerts (map heal_if_active (alerts st)) st).
Proof.
  revert st. induction fuel as [|fuel IH]; intros st Hnd Hle.
  - destruct (filter is_active (alerts st)) eqn:E; [|simpl in Hle; lia].
    simpl. rewrite (heal_if_active_settled _ E), app_nil_r. now destruct st.
  - simpl. destruct (filter is_active (alerts st)) as [|a rest] eqn:E.
    + rewrite (heal_if_active_settled _ E), app_nil_r. now destruct st.
    + destruct (first_active_split _ _ _ Hnd E) as [H1 H2].
      rewrite IH.
      * simpl. rewrite H1, H2, <- app_assoc. reflexivity.
      * simpl. now rewrite markHealing_ids.
      * simpl. rewrite H1. simpl in Hle. lia.
Qed.

Lemma suffix_runs_snapshots t l :
  (2 * list_sum (map (fun h => S (List.length (queue h))) (suffix_runs t l))
   = List.length l * (List.length l + 1))%nat.
Proof.
  induction l as [|a l IH]; [reflexivity|]. simpl map. simpl list_sum.
  simpl List.length. lia.
Qed.

Lemma suffix_runs_length t l : List.length (suffix_runs t l) = List.length l.
Proof. induction l as [|a l IH]; simpl; [reflexivity|now rewrite IH]. Qed.

(** X10.  On a store with distinct alert ids, the self-healing effect
    marks every active alert healing and starts one run of [healSystem]
    per active alert: the run started for the [j]-th active alert holds
    that alert and all active alerts after it.  With [n] active alerts
    the new runs hold [n (n + 1) / 2] alerts to heal in total. *)
Theorem heal_effect_fan_out st :
  NoDup (map a_id (alerts st)) ->
  let started := suffix_runs (clock st) (filter is_active (alerts st)) in
  let n := List.length (filter is_active (alerts st)) in
  alerts (runHealEffect st) = map heal_if_active (alerts st) /\
  healers (runHealEffect st) = healers st ++ started /\
  List.length started = n /\
  (2 * list_sum (map (fun h => S (List.length (queue h))) started) = n * (n + 1))%nat /\
  logs (runHealEffect st) = logs st /\
  monitors (runHealEffect st) = monitors st.
Proof.
  intros Hnd. cbv zeta. unfold runHealEffect.
  rewrite (healEffect_fan_out _ st Hnd (le_n _)). simpl.
  repeat split.
  - apply suffix_runs_length.
  - apply suffix_runs_snapshots.
Qed.

Lemma heal_effect_fan_out_witness :
  map (fun h => map a_id (current h :: queue h))
      (healers (runHealEffect
                  (set_alerts (materialize (at_ms 1000) 0 [draft_glue; draft_pipe])
                              initial)))
  = [ ["alert-1000-0"; "alert-1000-1"]; ["alert-1000-1"] ].
Proof.
  rewrite (proj1 (proj2 (heal_effect_fan_out
                           (set_alerts (materialize (at_ms 1000) 0
                                          [draft_glue; draft_pipe]) initial)
                           ltac:(repeat constructor; simpl; intuition discriminate)))).
  reflexivity.
Defined.

Lemma materialize_all_active clk idx ds :
  filter is_active (materialize clk idx ds) = materialize clk idx ds /\
  map heal_if_active (materialize clk idx ds)
  = map (with_status healing) (materialize clk idx ds).
Proof.
  revert idx. induction ds as [|d ds IH]; intros idx; [now split|].
  destruct (IH (S idx)) as [H1 H2]. simpl. fold (materialize clk (S idx) ds).
  rewrite H1. split; [reflexivity|]. now rewrite H2.
Qed.

(** X11.  When a pending detection yields drafts, the alert store is
    replaced by one alert per draft, each already in status [healing],
    and one run of [healSystem] is started per alert, the [j]-th on the
    alerts from the [j]-th on; the logs are untouched.  When the request
    throws, the alert store becomes empty and no run starts. *)
Theorem detection_starts_healing apiKey clk i st ls q k :
  analyzeForAlerts apiKey ls = Await q k ->
  nth_error (monitors st) i = Some (Some k) ->
  (forall ds, exists st',
      react apiKey clk (AlertsProposed i (Parsed ds)) st = Some st' /\
      alerts st' = map (with_status healing) (materialize clk 0 ds) /\
      healers st' = healers st ++ suffix_runs (now clk) (materialize clk 0 ds) /\
      logs st' = logs st) /\
  (exists st',
      react apiKey clk (AlertsProposed i Thrown) st = Some st' /\
      alerts st' = [] /\ healers st' = healers st /\ logs st' = logs st).
Proof.
  intros Hk Hn.
  destruct (analyzeForAlerts_cases apiKey ls) as [[_ E]|[_ E]];
    rewrite E in Hk; [discriminate|].
  injection Hk as _ <-. split.
  - intros ds. simpl. rewrite Hn. eexists. split; [reflexivity|].
    unfold runHealEffect. rewrite healEffect_fan_out.
    + simpl. destruct (materialize_all_active clk 0 ds) as [H1 H2].
      rewrite H1, H2. repeat split.
    + simpl. apply materialize_NoDup.
    + apply le_n.
  - simpl. rewrite Hn. eexists. split; [reflexivity|]. simpl. repeat split.
Qed.

Lemma detection_starts_healing_witness :
  exists st',
    react some_key (at_ms 1000) (AlertsProposed 0 (Parsed [draft_glue; draft_pipe]))
          (runMonitorEffect some_key (set_logs [glue_oom; pipe_stalled] initial))
    = Some st' /\
    map a_id (alerts st') = ["alert-1000-0"; "alert-1000-1"] /\
    map status (alerts st') = [healing; healing] /\
    List.length (healers st') = 2%nat.
Proof.
  destruct (analyzeForAlerts some_key [glue_oom; pipe_stalled]) as [r|q k] eqn:E;
    [discriminate|].
  destruct (proj1 (detection_starts_healing some_key (at_ms 1000) 0
                     (runMonitorEffect some_key (set_logs [glue_oom; pipe_stalled] initial))
                     [glue_oom; pipe_stalled] q k E
                     ltac:(injection E as _ <-; reflexivity))
                  [draft_glue; draft_pipe])
    as [st' [H1 [H2 [H3 _]]]].
  exists st'. split; [exact H1|]. rewrite H2, H3. repeat split.
Defined.

(** ** What healing changes in an alert *)

Lemma evolves_refl a : evolves a a.
Proof. unfold evolves. repeat split; auto. Qed.

Lemma evolves_trans a b c : evolves a b -> evolves b c -> evolves a c.
Proof.
  unfold evolves.
  intros [H1 [H2 [H3 [H4 [H5 [H6 [H7 H8]]]]]]] [G1 [G2 [G3 [G4 [G5 [G6 [G7 G8]]]]]]].
  repeat split; try congruence.
  destruct G8 as [G8|[G8|G8]]; auto. rewrite G8. exact H8.
Qed.

Lemma Forall2_evolves_refl als : Forall2 evolves als als.
Proof. induction als; constructor; auto using evolves_refl. Qed.

Lemma Forall2_evolves_trans l1 l2 l3 :
  Forall2 evolves l1 l2 -> Forall2 evolves l2 l3 -> Forall2 evolves l1 l3.
Proof.
  intros H. revert l3. induction H as [|a b l1 l2 Hab H12 IH]; intros l3 H23.
  - inversion H23. constructor.
  - inversion H23; subst. constructor; [eapply evolves_trans; eassumption|auto].
Qed.

Lemma Forall2_evolves_map (f : SystemAlert -> SystemAlert) (p : SystemAlert -> bool) als :
  (forall a, evolves a (f a)) ->
  Forall2 evolves als (map (fun a => if p a then f a else a) als).
Proof.
  intros Hf. induction als as [|a als IH]; simpl; constructor; [|assumption].
  destruct (p a); [apply Hf|apply evolves_refl].
Qed.

Lemma markHealing_evolves x als : Forall2 evolves als (markHealing x als).
Proof.
  apply (Forall2_evolves_map (with_status healing)
           (fun a => String.eqb (a_id a) (a_id x))).
  intros a. unfold evolves. simpl. repeat split; auto.
Qed.

Lemma markResolved_evolves x als : Forall2 evolves als (markResolved x als).
Proof.
  apply (Forall2_evolves_map (with_status resolved)
           (fun a => String.eqb (a_id a) (a_id x))).
  intros a. unfold evolves. simpl. repeat split; auto.
Qed.

Lemma applyPlan_evolves x d als : Forall2 evolves als (applyPlan x d als).
Proof.
  apply (Forall2_evolves_map (with_plan (thoughts d) (action d))
           (fun a => String.eqb (a_id a) (a_id x))).
  intros a. unfold evolves. simpl. repeat split; auto.
Qed.

Lemma healEffect_evolves fuel st :
  Forall2 evolves (alerts st) (alerts (healEffect fuel st)).
Proof.
  revert st. induction fuel as [|fuel IH]; intros st; simpl.
  - apply Forall2_evolves_refl.
  - destruct (filter is_active (alerts st)) as [|a rest].
    + apply Forall2_evolves_refl.
    + eapply Forall2_evolves_trans; [|apply IH]. simpl. apply markHealing_evolves.
Qed.

Lemma runMonitorEffect_alerts apiKey st :
  alerts (runMonitorEffect apiKey st) = alerts st.
Proof.
  unfold runMonitorEffect, monitorLogs.
  destruct (List.length (logs st) =? 0)%nat; [reflexivity|].
  destruct (hasErrors (logs st)); simpl; [|reflexivity].
  destruct (alerts st) as [|a als] eqn:E; simpl; [|now rewrite E].
  destruct (analyzeForAlerts_cases apiKey (logs st)) as [[_ Ea]|[_ Ea]];
    rewrite Ea; simpl; [reflexivity|assumption].
Qed.

Lemma advance_evolves clk i h st :
  Forall2 evolves (alerts st) (alerts (advance clk i h st)).
Proof.
  unfold advance. destruct (queue h); simpl.
  - apply Forall2_evolves_refl.
  - apply markHealing_evolves.
Qed.

Lemma resolveStep_evolves clk x d als lg :
  Forall2 evolves als (fst (resolveStep clk x d (als, lg))).
Proof.
  unfold resolveStep. destruct (success d); simpl.
  - apply markResolved_evolves.
  - apply Forall2_evolves_refl.
Qed.

(** X12.  Every event other than a reset or a detection result keeps
    the alert store in place: the same alerts in the same order, each with
    its id, title, description, severity, service, timestamp and related
    ids unchanged, and a status that is the one it had, [healing] or
    [resolved].  Healing never adds, drops or reorders alerts and never
    sets a status back to [active] or to [investigating]. *)
Theorem healing_keeps_incidents apiKey clk e st st' :
  keeps_alerts e = true ->
  react apiKey clk e st = Some st' ->
  Forall2 evolves (alerts st) (alerts st').
Proof.
  intros Hk H.
  assert (Hlog : forall l,
             Forall2 evolves (alerts st)
               (alerts (runHealEffect (runMonitorEffect apiKey
                                         (set_logs l (set_clock (now clk) st)))))).
  { intros l. eapply Forall2_evolves_trans; [|apply healEffect_evolves].
    rewrite runMonitorEffect_alerts. apply Forall2_evolves_refl. }
  destruct e; simpl in H; try discriminate.
  - inversion H; subst. apply Hlog.
  - inversion H; subst. apply Hlog.
  - inversion H; subst. apply Hlog.
  - inversion H; subst. apply Forall2_evolves_refl.
  - inversion H; subst. apply Forall2_evolves_refl.
  - destruct (nth_error (healers st) i) as [h|]; [|discriminate].
    destruct (phase h) as [w|k|d w|]; try discriminate.
    + destruct (agentDiagnoseAndHeal apiKey (current h)) as [d|q k];
        inversion H; subst.
      * eapply Forall2_evolves_trans; [|apply healEffect_evolves].
        simpl. apply applyPlan_evolves.
      * apply Forall2_evolves_refl.
    + inversion H; subst.
      eapply Forall2_evolves_trans; [|apply healEffect_evolves].
      assert (Hadv : Forall2 evolves (alerts st)
                       (alerts (advance clk i h
                                  (set_logs (snd (resolveStep clk (current h) d
                                                    (alerts st, logs st)))
                                     (set_alerts (fst (resolveStep clk (current h) d
                                                         (alerts st, logs st)))
                                        (set_clock (now clk) st)))))).
      { eapply Forall2_evolves_trans; [|apply advance_evolves].
        simpl. apply resolveStep_evolves. }
      destruct (success d); [rewrite runMonitorEffect_alerts|]; exact Hadv.
  - destruct (nth_error (healers st) i) as [h|]; [|discriminate].
    destruct (phase h) as [w|k|d w|]; try discriminate.
    inversion H; subst.
    eapply Forall2_evolves_trans; [|apply healEffect_evolves].
    simpl. apply applyPlan_evolves.
Qed.

Lemma healing_keeps_incidents_witness :
  Forall2 evolves (alerts acting_state) (alerts resolved_state).
Proof.
  apply (healing_keeps_incidents some_key (at_ms 7000) (TimerFires 0)
           acting_state resolved_state).
  - reflexivity.
  - reflexivity.
Defined.

(** ** One loop iteration of [healSystem] *)


Lemma map_same_id_twice (f g : SystemAlert -> SystemAlert) x als :
  (forall a, a_id (f a) = a_id a) ->
  map (fun a => if String.eqb (a_id a) (a_id x) then g a else a)
      (map (fun a => if String.eqb (a_id a) (a_id x) then f a else a) als)
  = map (fun a => if String.eqb (a_id a) (a_id x) then g (f a) else a) als.
Proof.
  intros Hf. rewrite map_map. apply map_ext. intros a.
  destruct (String.eqb (a_id a) (a_id x)) eqn:E.
  - now rewrite Hf, E.
  - now rewrite E.
Qed.


(** X14.  Running the loop iteration a second time on the same alert
    with the same diagnosis gives the same alert store as running it
    once, and, when the diagnosis succeeded, a second SUCCESS record in
    the log store. *)
Theorem repeated_healing clk1 clk2 alert diagnosis als lg :
  let once := healOne clk1 alert diagnosis (als, lg) in
  let twice := healOne clk2 alert diagnosis once in
  fst twice = fst once /\
  snd twice = if success diagnosis
              then lg ++ [successLog clk1 alert diagnosis;
                          successLog clk2 alert diagnosis]
              else lg.
Proof.
  cbv zeta. unfold healOne, resolveStep. destruct (success diagnosis); simpl.
  - split; [|now rewrite <- app_assoc].
    unfold markResolved, applyPlan, markHealing.
    rewrite !map_same_id_twice by reflexivity. apply map_ext. intros a.
    now destruct (String.eqb (a_id a) (a_id alert)).
  - split; [|reflexivity].
    unfold applyPlan, markHealing.
    rewrite !map_same_id_twice by reflexivity. apply map_ext. intros a.
    now destruct (String.eqb (a_id a) (a_id alert)).
Qed.

(** ** [generateEnterpriseLogs] *)

Lemma add_levels w l0 m s lv msg :
  levels_of (add w l0 m s lv msg) = levels_of l0 ++ [lv].
Proof. unfold add, levels_of. now rewrite map_app. Qed.

Lemma background_levels w draw slots l0 :
  levels_of (background w draw slots l0)
  = levels_of l0
    ++ map (fun _ => INFO) (filter (w_noisy w) (seq draw (List.length slots))).
Proof.
  revert draw l0. induction slots as [|[m s] slots IH]; intros draw l0; simpl.
  - now rewrite app_nil_r.
  - rewrite IH. destruct (w_noisy w draw); [|reflexivity].
    rewrite add_levels, <- app_assoc. reflexivity.
Qed.

Lemma add_all_levels w calls l0 :
  levels_of (add_all w calls l0) = levels_of l0 ++ map (fun c => snd (fst c)) calls.
Proof.
  unfold add_all. revert l0.
  induction calls as [|[[[m s] lv] msg] calls IH]; intros l0; simpl.
  - now rewrite app_nil_r.
  - rewrite IH, add_levels, <- app_assoc. reflexivity.
Qed.

Lemma pushed_levels w :
  levels_of (pushed w) = map (fun _ => INFO) (noisy_draws w) ++ incident_levels.
Proof. unfold pushed. now rewrite add_all_levels, background_levels. Qed.

Lemma insert_by_time_perm x l : Permutation (insert_by_time x l) (x :: l).
Proof.
  induction l as [|y l IH]; simpl; [reflexivity|].
  destruct (fst x <=? fst y); [reflexivity|].
  rewrite IH. apply perm_swap.
Qed.

Lemma sort_by_time_perm l : Permutation (sort_by_time l) l.
Proof.
  induction l as [|x l IH]; simpl; [constructor|].
  rewrite insert_by_time_perm. now constructor.
Qed.

Lemma insert_by_time_sorted x l :
  Sorted (fun a b => fst a <= fst b) l ->
  Sorted (fun a b => fst a <= fst b) (insert_by_time x l).
Proof.
  induction l as [|y l IH]; intros Hs; simpl.
  - repeat constructor.
  - destruct (fst x <=? fst y) eqn:E.
    + constructor; [assumption|]. constructor. lia.
    + apply Sorted_inv in Hs as [Hs Hd]. constructor; [auto|].
      destruct l as [|z l]; simpl.
      * constructor. lia.
      * destruct (fst x <=? fst z); constructor; try lia.
        now apply HdRel_inv in Hd.
Qed.

Lemma sort_by_time_sorted l : Sorted (fun a b => fst a <= fst b) (sort_by_time l).
Proof.
  induction l as [|x l IH]; simpl; [constructor|].
  now apply insert_by_time_sorted.
Qed.

Lemma filter_length_perm {A} (p : A -> bool) l l' :
  Permutation l l' -> List.length (filter p l) = List.length (filter p l').
Proof.
  induction 1 as [|x l l' H IH|x y l|l l' l'' H1 IH1 H2 IH2]; simpl.
  - reflexivity.
  - destruct (p x); simpl; now rewrite IH.
  - destruct (p x), (p y); reflexivity.
  - now rewrite IH1.
Qed.

(** Counting the generated logs by level is counting the pushed levels. *)
Lemma generated_count w (p : LogLevel -> bool) :
  List.length (filter (fun l => p (level l)) (generateEnterpriseLogs w))
  = ((if p INFO then List.length (noisy_draws w) else 0)
     + List.length (filter p incident_levels))%nat.
Proof.
  unfold generateEnterpriseLogs.
  transitivity (List.length (filter p (levels_of (timeline w)))).
  { unfold levels_of. induction (timeline w) as [|e l IH]; [reflexivity|].
    simpl. destruct (p (level (snd e))); simpl; now rewrite IH. }
  rewrite (filter_length_perm p (levels_of (timeline w)) (levels_of (pushed w))).
  - rewrite pushed_levels, filter_app, length_app. f_equal.
    induction (noisy_draws w) as [|n l IH]; simpl.
    + now destruct (p INFO).
    + destruct (p INFO); simpl; [now rewrite IH|exact IH].
  - unfold levels_of. apply Permutation_map. apply sort_by_time_perm.
Qed.

Lemma noisy_draws_bound w : (List.length (noisy_draws w) <= 192)%nat.
Proof.
  unfold noisy_draws.
  etransitivity; [apply filter_length_le|]. now rewrite length_seq.
Qed.

Lemma add_dated w l0 m s lv msg :
  (forall e, In e l0 -> l_timestamp (snd e) = w_iso w (fst e)) ->
  forall e, In e (add w l0 m s lv msg) -> l_timestamp (snd e) = w_iso w (fst e).
Proof.
  intros H e Hin. unfold add in Hin. apply in_app_or in Hin as [Hin|[<-|[]]]; auto.
Qed.

Lemma pushed_dated w e : In e (pushed w) -> l_timestamp (snd e) = w_iso w (fst e).
Proof.
  unfold pushed, add_all.
  assert (Hb : forall draw slots l0,
             (forall e, In e l0 -> l_timestamp (snd e) = w_iso w (fst e)) ->
             forall e, In e (background w draw slots l0) ->
                       l_timestamp (snd e) = w_iso w (fst e)).
  { intros draw slots. revert draw.
    induction slots as [|[m s] slots IH]; intros draw l0 H0; simpl; [exact H0|].
    apply IH. destruct (w_noisy w draw); [now apply add_dated|exact H0]. }
  assert (Ha : forall calls l0,
             (forall e, In e l0 -> l_timestamp (snd e) = w_iso w (fst e)) ->
             forall e, In e (fold_left
                               (fun acc c => match c with
                                             | (m, s, lv, msg) => add w acc m s lv msg
                                             end) calls l0) ->
                       l_timestamp (snd e) = w_iso w (fst e)).
  { induction calls as [|[[[m s] lv] msg] calls IH]; intros l0 H0; simpl; [exact H0|].
    apply IH. now apply add_dated. }
  revert e. apply Ha. apply Hb. intros e [].
Qed.

(** X15.  Whatever the random draws and the clock, the generated demo
    logs hold 5 records at level ERROR or CRITICAL and 4 at WARNING, as
    the dashboard counts them, and 7 informational records plus one per
    noise draw above 0.7; in all between 16 and 208 records. *)
Theorem demo_logs_counts w als :
  errorCount (stats (generateEnterpriseLogs w) als) = 5%nat /\
  warnCount (stats (generateEnterpriseLogs w) als) = 4%nat /\
  successCount (stats (generateEnterpriseLogs w) als)
  = (7 + List.length (noisy_draws w))%nat /\
  List.length (generateEnterpriseLogs w) = (16 + List.length (noisy_draws w))%nat /\
  (16 <= List.length (generateEnterpriseLogs w) <= 208)%nat.
Proof.
  pose proof (generated_count w (fun _ => true)) as Hall.
  pose proof (generated_count w (fun lv => LogLevel_eqb lv ERROR
                                           || LogLevel_eqb lv CRITICAL)) as Herr.
  pose proof (generated_count w (fun lv => LogLevel_eqb lv WARNING)) as Hwarn.
  pose proof (generated_count w (fun lv => LogLevel_eqb lv SUCCESS
                                           || LogLevel_eqb lv INFO)) as Hok.
  pose proof (noisy_draws_bound w) as Hb.
  unfold stats. cbn [errorCount warnCount successCount].
  remember (generateEnterpriseLogs w) as g eqn:Eg.
  remember (List.length (noisy_draws w)) as n eqn:En.
  clear Eg En.
  assert (Hlen : List.length (filter (fun _ : LogEntry => true) g) = List.length g).
  { clear. induction g as [|l g IH]; simpl; [reflexivity|now rewrite IH]. }
  cbv beta in *. rewrite Hlen in Hall.
  change (List.length (filter (fun lv => LogLevel_eqb lv ERROR || LogLevel_eqb lv CRITICAL)
                              incident_levels)) with 5%nat in Herr.
  change (List.length (filter (fun lv => LogLevel_eqb lv WARNING) incident_levels))
    with 4%nat in Hwarn.
  change (List.length (filter (fun lv => LogLevel_eqb lv SUCCESS || LogLevel_eqb lv INFO)
                              incident_levels)) with 7%nat in Hok.
  change (List.length (filter (fun _ : LogLevel => true) incident_levels))
    with 16%nat in Hall.
  cbn [LogLevel_eqb orb] in *.
  repeat split; try assumption; lia.
Qed.

Lemma demo_logs_counts_witness :
  List.length (generateEnterpriseLogs quiet_world) = 16%nat /\
  errorCount (stats (generateEnterpriseLogs quiet_world) []) = 5%nat.
Proof.
  destruct (demo_logs_counts quiet_world []) as [H1 [_ [_ [H4 _]]]].
  split; [exact H4|exact H1].
Defined.

Lemma noise_slots_minutes m s : In (m, s) noise_slots -> 60 <= m <= 1440.
Proof.
  unfold noise_slots, noise_minutes. intros H.
  apply in_flat_map in H as [m' [Hm Hs]].
  apply in_map_iff in Hs as [s' [E _]]. injection E as -> _.
  apply in_map_iff in Hm as [k [<- Hk]]. apply in_seq in Hk. lia.
Qed.

Lemma add_window w l0 m s lv msg :
  5 <= m <= 1440 ->
  (forall e, In e l0 -> w_now w - 86400000 <= fst e <= w_now w - 300000) ->
  forall e, In e (add w l0 m s lv msg) ->
            w_now w - 86400000 <= fst e <= w_now w - 300000.
Proof.
  intros Hm H e Hin. unfold add in Hin.
  apply in_app_or in Hin as [Hin|[<-|[]]]; [auto|]. simpl. lia.
Qed.

Lemma pushed_window w e :
  In e (pushed w) -> w_now w - 86400000 <= fst e <= w_now w - 300000.
Proof.
  unfold pushed, add_all.
  assert (Hb : forall slots draw l0,
             (forall m s, In (m, s) slots -> 60 <= m <= 1440) ->
             (forall e, In e l0 -> w_now w - 86400000 <= fst e <= w_now w - 300000) ->
             forall e, In e (background w draw slots l0) ->
                       w_now w - 86400000 <= fst e <= w_now w - 300000).
  { induction slots as [|[m s] slots IH]; intros draw l0 Hs H0; simpl; [exact H0|].
    apply IH; [intros m' s' H'; apply (Hs m' s'); now right|].
    destruct (w_noisy w draw); [|exact H0].
    apply add_window; [|exact H0].
    specialize (Hs m s (or_introl eq_refl)). lia. }
  assert (Ha : forall calls l0,
             Forall (fun c => 5 <= fst (fst (fst c)) <= 1440) calls ->
             (forall e, In e l0 -> w_now w - 86400000 <= fst e <= w_now w - 300000) ->
             forall e, In e (fold_left
                               (fun acc c => match c with
                                             | (m, s, lv, msg) => add w acc m s lv msg
                                             end) calls l0) ->
                       w_now w - 86400000 <= fst e <= w_now w - 300000).
  { induction calls as [|[[[m s] lv] msg] calls IH]; intros l0 Hc H0; simpl; [exact H0|].
    inversion Hc as [|? ? Hm Hc']; subst. apply IH; [assumption|].
    now apply add_window. }
  revert e. apply Ha.
  - unfold incident. repeat constructor; simpl; lia.
  - apply (Hb noise_slots 0%nat []); [apply noise_slots_minutes|intros e []].
Qed.

(** X16.  The generated demo logs are the pushed logs reordered by
    time, earliest first: a permutation of them in which every log's
    instant is at most the next one's.  Every log carries the rendering
    of its instant as timestamp, and its instant lies between 24 hours
    and 5 minutes before the clock reading. *)
Theorem demo_logs_ordered w :
  generateEnterpriseLogs w = map snd (timeline w) /\
  Sorted (fun a b => fst a <= fst b) (timeline w) /\
  Permutation (timeline w) (pushed w) /\
  (forall e, In e (timeline w) ->
             l_timestamp (snd e) = w_iso w (fst e) /\
             w_now w - 86400000 <= fst e <= w_now w - 300000).
Proof.
  unfold generateEnterpriseLogs, timeline.
  split; [exact eq_refl|].
  split; [exact (sort_by_time_sorted (pushed w))|].
  split; [exact (sort_by_time_perm (pushed w))|].
  intros e Hin.
  pose proof (Permutation_in e (sort_by_time_perm (pushed w)) Hin) as Hp.
  split; [exact (pushed_dated w e Hp)|exact (pushed_window w e Hp)].
Qed.

Lemma hasErrors_problematic ls : hasErrors ls = true -> existsb problematic ls = true.
Proof.
  unfold hasErrors. rewrite !existsb_exists. intros [l [Hin Hl]].
  exists l. split; [assumption|]. unfold problematic.
  destruct (level l); simpl in *; auto.
Qed.

Lemma monitorLogs_open apiKey ls :
  truthy apiKey = true -> hasErrors ls = true ->
  monitorLogs apiKey ls []
  = Some (Await (filter problematic ls)
                (fun clk o => match o with
                              | Parsed ds => materialize clk 0 ds
                              | Thrown => []
                              end)).
Proof.
  intros Hk He. unfold monitorLogs. rewrite He.
  destruct ls as [|l ls]; [discriminate|].
  cbn [List.length Nat.eqb andb].
  destruct (analyzeForAlerts_cases apiKey (l :: ls)) as [[Hb E]|[Hb E]].
  - rewrite Hk, (hasErrors_problematic _ He) in Hb. discriminate.
  - now rewrite E.
Qed.

(** X17.  With a key set, loading the demo logs into the initial state
    always opens the detection gate: the logs are stored, the alert store
    is still empty, and exactly one request of [analyzeForAlerts] is
    pending, which carries the 9 logs at level WARNING, ERROR or
    CRITICAL. *)
Theorem demo_opens_detection apiKey clk w :
  truthy apiKey = true ->
  exists q k st',
    analyzeForAlerts apiKey (generateEnterpriseLogs w) = Await q k /\
    List.length q = 9%nat /\
    react apiKey clk (EnterpriseScenario (generateEnterpriseLogs w)) initial = Some st' /\
    logs st' = generateEnterpriseLogs w /\
    alerts st' = [] /\
    monitors st' = [Some k] /\
    healers st' = [].
Proof.
  intros Hk.
  pose proof (generated_count w (fun lv => LogLevel_eqb lv ERROR
                                           || LogLevel_eqb lv CRITICAL)) as Herr.
  pose proof (generated_count w (fun lv => LogLevel_eqb lv ERROR
                                           || LogLevel_eqb lv CRITICAL
                                           || LogLevel_eqb lv WARNING)) as Hprob.
  cbv beta in Herr, Hprob.
  change (List.length (filter (fun lv => LogLevel_eqb lv ERROR || LogLevel_eqb lv CRITICAL)
                              incident_levels)) with 5%nat in Herr.
  change (List.length (filter (fun lv => LogLevel_eqb lv ERROR || LogLevel_eqb lv CRITICAL
                                         || LogLevel_eqb lv WARNING)
                              incident_levels)) with 9%nat in Hprob.
  cbn [LogLevel_eqb orb] in Herr, Hprob.
  remember (generateEnterpriseLogs w) as g eqn:Eg. clear Eg.
  assert (He : hasErrors g = true).
  { unfold hasErrors.
    pose proof (filter_empty_existsb
                  (fun l => LogLevel_eqb (level l) ERROR
                            || LogLevel_eqb (level l) CRITICAL) g) as H.
    rewrite Herr in H. simpl in H. now destruct (existsb _ g). }
  pose proof (monitorLogs_open apiKey g Hk He) as Hm.
  destruct (analyzeForAlerts_cases apiKey g) as [[Hb E]|[Hb E]].
  { rewrite Hk, (hasErrors_problematic _ He) in Hb. discriminate. }
  eexists. eexists. eexists. split; [exact E|]. split; [exact Hprob|].
  unfold react. cbn [logs set_clock initial app].
  unfold runMonitorEffect. cbn [logs alerts set_logs set_clock initial]. rewrite Hm.
  split; [reflexivity|].
  unfold runHealEffect.
  cbn [alerts set_monitors set_logs set_clock initial filter List.length healEffect].
  repeat split.
Qed.

Lemma demo_opens_detection_witness :
  exists q k st',
    analyzeForAlerts some_key (generateEnterpriseLogs quiet_world) = Await q k /\
    List.length q = 9%nat /\
    react some_key (at_ms 800) (EnterpriseScenario (generateEnterpriseLogs quiet_world))
          initial = Some st' /\
    logs st' = generateEnterpriseLogs quiet_world /\
    alerts st' = [] /\
    monitors st' = [Some k] /\
    healers st' = [].
Proof.
  apply (demo_opens_detection some_key (at_ms 800) quiet_world). reflexivity.
Defined.

Lemma demo_logs_ordered_witness :
  Sorted (fun a b => fst a <= fst b) (timeline quiet_world) /\
  Permutation (timeline quiet_world) (pushed quiet_world).
Proof.
  split.
  - exact (proj1 (proj2 (demo_logs_ordered quiet_world))).
  - exact (proj1 (proj2 (proj2 (demo_logs_ordered quiet_world)))).
Defined.

(** ** [handleSend] *)

Lemma string_app_nil_r (s : string) : (s ++ "")%string = s.
Proof. induction s as [|c s IH]; simpl; [reflexivity|now rewrite IH]. Qed.

Lemma chunk_text_cons chunk chunks :
  chunk_text (chunk :: chunks)
  = ((match chunk with Some t => t | None => EmptyString end)
     ++ chunk_text chunks)%string.
Proof.
  unfold chunk_text. simpl map. destruct chunks as [|c' cs].
  - simpl. now rewrite string_app_nil_r.
  - reflexivity.
Qed.

Lemma map_untouched botMsgId (f : ChatMessage -> ChatMessage) pre :
  ~ In botMsgId (map m_id pre) ->
  map (fun m => if String.eqb (m_id m) botMsgId then f m else m) pre = pre.
Proof.
  induction pre as [|m pre IH]; intros Hn; [reflexivity|].
  simpl. destruct (String.eqb (m_id m) botMsgId) eqn:E.
  - apply String.eqb_eq in E. exfalso. apply Hn. now left.
  - f_equal. apply IH. intros H. apply Hn. now right.
Qed.

Lemma stream_chunks_last botMsgId chunks :
  forall fullText pre b,
    ~ In botMsgId (map m_id pre) -> m_id b = botMsgId -> m_text b = fullText ->
    stream_chunks botMsgId fullText chunks (pre ++ [b])
    = pre ++ [with_text (fullText ++ chunk_text chunks) b].
Proof.
  induction chunks as [|chunk chunks IH]; intros fullText pre b Hn Hid Ht.
  - simpl. unfold chunk_text. simpl. rewrite string_app_nil_r, <- Ht.
    now destruct b.
  - rewrite chunk_text_cons. simpl stream_chunks.
    set (text := match chunk with Some t => t | None => EmptyString end).
    rewrite map_app, (map_untouched _ _ _ Hn). simpl map.
    rewrite Hid, String.eqb_refl.
    rewrite (IH (fullText ++ text)%string pre
               (with_text (fullText ++ text)%string b) Hn Hid eq_refl).
    rewrite string_app_assoc. reflexivity.
Qed.

(** [handleSend] does nothing while a reply is being awaited or
    when the input is empty or white space only: the state is unchanged
    and [streamChatResponse] is not called. *)
Theorem send_guard apiKey ls als c reply st :
  blank (input st) = true \/ isTyping st = true ->
  handleSend apiKey ls als c reply st = (st, None).
Proof.
  intros H. unfold handleSend.
  destruct H as [H|H]; rewrite H; [reflexivity|now rewrite orb_true_r].
Qed.

Lemma send_guard_witness :
  handleSend some_key [] [] send_clocks Rejects (mkChat "  " [intro_message] false)
  = (mkChat "  " [intro_message] false, None) /\
  handleSend some_key [] [] send_clocks Rejects (mkChat "hello" [intro_message] true)
  = (mkChat "hello" [intro_message] true, None).
Proof.
  split.
  - apply (send_guard some_key [] [] send_clocks Rejects
             (mkChat "  " [intro_message] false)).
    left. reflexivity.
  - apply (send_guard some_key [] [] send_clocks Rejects
             (mkChat "hello" [intro_message] true)).
    right. reflexivity.
Defined.

(** X18.  When a message is sent without a key, or the chat call
    rejects, the transcript gains the user message with the input as
    typed, followed by the error message; the input is cleared and the
    typing flag is off again.  Without a key no request is made:
    [streamChatResponse] throws. *)
Theorem send_failure apiKey ls als c reply st :
  blank (input st) = false -> isTyping st = false ->
  truthy apiKey = false \/ reply = Rejects ->
  let user := mkMsg (show_Z (c_user_id c)) role_user (input st) (c_user_ts c) in
  fst (handleSend apiKey ls als c reply st)
  = mkChat EmptyString (messages st ++ [user; error_message c]) false /\
  (truthy apiKey = false ->
   snd (handleSend apiKey ls als c reply st) = Some (ChatThrows "API Key missing")).
Proof.
  intros Hb Ht H. cbv zeta. unfold handleSend. rewrite Hb, Ht. simpl orb. cbv iota.
  unfold streamChatResponse. destruct (truthy apiKey) eqn:Hk; simpl.
  - destruct H as [H| ->]; [discriminate|]. split; [|discriminate].
    now rewrite <- app_assoc.
  - split; [|reflexivity]. now rewrite <- app_assoc.
Qed.

Lemma send_failure_witness :
  fst (handleSend None [] [] send_clocks Rejects asking)
  = mkChat EmptyString
      [ intro_message;
        mkMsg "5000" role_user "Why did Glue fail?" 5000;
        error_message send_clocks ] false.
Proof.
  apply (send_failure None [] [] send_clocks Rejects asking).
  - reflexivity.
  - reflexivity.
  - left. reflexivity.
Defined.

(** X19.  When a message is sent with a key and the chat streams its
    reply, the request carries the earlier messages as history (role and
    text of each, the new message not among them), the input as typed as
    current message, and the context of the current logs and alerts.  If
    the reply id is not the id of an earlier message or of the user
    message, the transcript gains the user message and one reply whose
    text is the chunk texts joined in order; the earlier messages are
    unchanged.  If the stream throws, the error message follows the
    partial reply. *)
Theorem send_streams apiKey ls als c chunks completes st :
  blank (input st) = false -> isTyping st = false ->
  truthy apiKey = true ->
  let user := mkMsg (show_Z (c_user_id c)) role_user (input st) (c_user_ts c) in
  let botMsgId := show_Z (c_bot_id c + 1) in
  ~ In botMsgId (map m_id (messages st ++ [user])) ->
  handleSend apiKey ls als c (Streams chunks completes) st
  = (mkChat EmptyString
       (messages st
        ++ [user; mkMsg botMsgId role_model (chunk_text chunks) (c_bot_ts c)]
        ++ (if completes then [] else [error_message c]))
       false,
     Some (ChatSends (chatContext ls als)
                     (map (fun m => mkTurn (role_name (m_role m)) [m_text m])
                          (messages st))
                     (input st))).
Proof.
  intros Hb Ht Hk user botMsgId Hfresh.
  unfold handleSend. rewrite Hb, Ht. simpl orb. cbv iota.
  unfold streamChatResponse. rewrite Hk. simpl negb. cbv iota. cbv zeta.
  fold user. fold botMsgId.
  rewrite (stream_chunks_last botMsgId chunks EmptyString (messages st ++ [user])
             (mkMsg botMsgId role_model EmptyString (c_bot_ts c)) Hfresh eq_refl eq_refl).
  simpl String.append. unfold with_text. simpl.
  destruct completes; simpl; rewrite <- ?app_assoc; simpl;
    rewrite ?app_nil_r; reflexivity.
Qed.

Lemma send_streams_witness :
  handleSend some_key [glue_oom] [] send_clocks
             (Streams [Some "Glue ran "; None; Some "out of heap."] true) asking
  = (mkChat EmptyString
       [ intro_message;
         mkMsg "5000" role_user "Why did Glue fail?" 5000;
         mkMsg "5801" role_model "Glue ran out of heap." 5800 ] false,
     Some (ChatSends (chatContext [glue_oom] [])
                     [mkTurn "model" [m_text intro_message]]
                     "Why did Glue fail?")).
Proof.
  apply (send_streams some_key [glue_oom] [] send_clocks
           [Some "Glue ran "; None; Some "out of heap."] true asking).
  - reflexivity.
  - reflexivity.
  - reflexivity.
  - simpl. intros [H|[H|[]]]; discriminate.
Defined.

(** ** Pending detections *)

(** X20.  While the alert store is empty, every upload that leaves an
    ERROR or CRITICAL record in the log store starts a new request of
    [analyzeForAlerts] on the whole store, in addition to the requests
    already pending; nothing else changes but the logs. *)
Theorem detections_accumulate apiKey clk added st :
  truthy apiKey = true ->
  alerts st = [] ->
  hasErrors (logs st ++ added) = true ->
  exists st' k,
    react apiKey clk (FileUploaded added) st = Some st' /\
    analyzeForAlerts apiKey (logs st ++ added)
    = Await (filter problematic (logs st ++ added)) k /\
    monitors st' = monitors st ++ [Some k] /\
    alerts st' = [] /\
    healers st' = healers st /\
    logs st' = logs st ++ added.
Proof.
  intros Hk Ha He.
  pose proof (monitorLogs_open apiKey (logs st ++ added) Hk He) as Hm.
  destruct (analyzeForAlerts_cases apiKey (logs st ++ added)) as [[Hb E]|[Hb E]].
  { rewrite Hk, (hasErrors_problematic _ He) in Hb. discriminate. }
  eexists. eexists. split; [|split; [exact E|]].
  - unfold react. reflexivity.
  - unfold runMonitorEffect. cbn [logs alerts set_logs set_clock].
    rewrite Ha, Hm. unfold runHealEffect.
    cbn [alerts set_monitors set_logs set_clock]. rewrite Ha.
    cbn [filter List.length healEffect]. repeat split. exact Ha.
Qed.

Lemma detections_accumulate_witness :
  exists st',
    run some_key [ (at_ms 0, FileUploaded [glue_oom]);
                   (at_ms 10, FileUploaded [pipe_stalled]) ] initial = Some st' /\
    List.length (monitors st') = 2%nat.
Proof.
  destruct (detections_accumulate some_key (at_ms 0) [glue_oom] initial
              eq_refl eq_refl eq_refl) as [st1 [k1 [H1 [_ [M1 [A1 [_ L1]]]]]]].
  destruct (detections_accumulate some_key (at_ms 10) [pipe_stalled] st1
              eq_refl A1 ltac:(rewrite L1; reflexivity))
    as [st2 [k2 [H2 [_ [M2 _]]]]].
  exists st2. split.
  - cbn [run fst snd]. rewrite H1. cbn [run fst snd]. rewrite H2. reflexivity.
  - rewrite M2, M1. reflexivity.
Defined.

(** ** The steps of one run inside the component *)

Lemma evolves_settled l l' :
  Forall2 evolves l l' -> filter is_active l = [] -> filter is_active l' = [].
Proof.
  induction 1 as [|a b l l' Hab H IH]; intros Hs; [reflexivity|].
  simpl in Hs. destruct (is_active a) eqn:Ha; [discriminate|].
  simpl. rewrite (IH Hs).
  destruct Hab as [_ [_ [_ [_ [_ [_ [_ Hst]]]]]]].
  unfold is_active in *.
  destruct Hst as [E|[E|E]]; rewrite E; [now rewrite Ha|reflexivity|reflexivity].
Qed.

Lemma runHealEffect_settled st : settled st -> runHealEffect st = st.
Proof. unfold settled, runHealEffect. intros ->. reflexivity. Qed.

Lemma nth_error_replace_nth {A} (l : list A) i x y :
  nth_error l i = Some y -> nth_error (replace_nth i x l) i = Some x.
Proof.
  revert i. induction l as [|z l IH]; intros [|i] H; try discriminate.
  - reflexivity.
  - simpl in *. now apply IH.
Qed.

(** A thrown request inside the component: the run writes the fallback
    plan on the alerts with its alert's id, changes no status and no log,
    and waits for the action delay. *)
Lemma thrown_request_step apiKey clk i h q k st :
  settled st ->
  nth_error (healers st) i = Some h -> phase h = Diagnosing k ->
  agentDiagnoseAndHeal apiKey (current h) = Await q k ->
  exists st',
    react apiKey clk (DiagnosisSettles i Thrown) st = Some st' /\
    alerts st' = applyPlan (current h) agent_failed (alerts st) /\
    map status (alerts st') = map status (alerts st) /\
    logs st' = logs st /\
    nth_error (healers st') i
    = Some (mkHealer (current h) (queue h) (Acting agent_failed (now clk + 4000))).
Proof.
  intros Hs Hn Hp Hk.
  assert (Ek : k clk Thrown = agent_failed).
  { unfold agentDiagnoseAndHeal in Hk.
    destruct (negb (truthy apiKey)); [discriminate|]. now injection Hk as _ <-. }
  simpl. rewrite Hn, Hp, Ek. eexists. split; [reflexivity|].
  rewrite runHealEffect_settled.
  - simpl. split; [reflexivity|]. split; [apply applyPlan_statuses|].
    split; [reflexivity|]. eapply nth_error_replace_nth. exact Hn.
  - unfold settled. simpl.
    exact (evolves_settled _ _ (applyPlan_evolves _ _ _) Hs).
Qed.

(** The end of an iteration inside the component.  After a diagnosis
    without success the timer writes no log and no status of the run's
    alert; after one with success it appends the SUCCESS record and marks
    the alert resolved.  Either way the run then marks the next alert of
    its snapshot healing, whatever the status of that alert is by then. *)
Lemma action_timer_step apiKey clk i h d w st :
  settled st ->
  nth_error (healers st) i = Some h -> phase h = Acting d w ->
  exists st',
    react apiKey clk (TimerFires i) st = Some st' /\
    logs st' = logs st ++ (if success d then [successLog clk (current h) d] else []) /\
    alerts st'
    = (let resolved_or_not :=
         if success d then markResolved (current h) (alerts st) else alerts st in
       match queue h with
       | [] => resolved_or_not
       | next :: _ => markHealing next resolved_or_not
       end).
Proof.
  intros Hs Hn Hp. simpl. rewrite Hn, Hp. eexists. split; [reflexivity|].
  assert (Hset : forall st1,
             Forall2 evolves (alerts st) (alerts st1) -> settled st1).
  { intros st1 H. exact (evolves_settled _ _ H Hs). }
  unfold resolveStep. destruct (success d) eqn:Hd; simpl fst; simpl snd.
  - rewrite runHealEffect_settled.
    + rewrite runMonitorEffect_logs, runMonitorEffect_alerts, advance_logs.
      split; [reflexivity|]. unfold advance. now destruct (queue h).
    + unfold settled. rewrite runMonitorEffect_alerts. apply Hset.
      eapply Forall2_evolves_trans; [|apply advance_evolves].
      simpl. apply markResolved_evolves.
  - rewrite runHealEffect_settled.
    + rewrite advance_logs. simpl. rewrite app_nil_r.
      split; [reflexivity|]. unfold advance. now destruct (queue h).
    + apply Hset. eapply Forall2_evolves_trans; [|apply advance_evolves].
      simpl. apply Forall2_evolves_refl.
Qed.

(** ** The healing sequence inside the component *)

(** C4.  A request that throws does not always leave its alert healing.
    Two alerts are detected together.  The run started for both heals the
    first and then, from its snapshot, the second, which it resolves at
    13200 ms with a SUCCESS record; the request the other run sent for the
    second alert at 3000 ms is still pending then.  That request throws at
    20000 ms: the fallback action is written on the alert, and at 24000
    ms the run's iteration ends with the alert resolved, not healing, and
    a SUCCESS record for it in the log store. *)
Theorem thrown_diagnosis_ends_resolved :
  option_map (diagnose_calls_in_flight "alert-1000-1")
             (exec some_key resolved_by_first_run initial) = Some 1%nat /\
  option_map alert_rows (exec some_key resolved_by_first_run initial)
  = Some [ ("alert-1000-0", resolved, Some "Scale Glue Workers");
           ("alert-1000-1", resolved, Some "Trigger Backfill") ] /\
  option_map alert_rows (exec some_key thrown_after_resolution initial)
  = Some [ ("alert-1000-0", resolved, Some "Scale Glue Workers");
           ("alert-1000-1", resolved, Some "Manual intervention required") ] /\
  option_map success_messages (exec some_key thrown_after_resolution initial)
  = Some [ "Resolved alert: Glue OOM. Action Taken: Scale Glue Workers";
           "Resolved alert: Pipe stalled. Action Taken: Trigger Backfill" ] /\
  option_map runs_in_progress (exec some_key thrown_after_resolution initial)
  = Some [].
Proof. repeat split; vm_compute; reflexivity. Qed.

(** C6.  A diagnosis with success does not always leave its alert
    resolved with one SUCCESS record.  Two alerts are detected together
    and the second is diagnosed with success and resolved at 7300 ms by
    the run started for it.  The run started for both alerts marks it
    healing again at 9000 ms and has it diagnosed once more.  When that
    diagnosis succeeds too, the log store ends with two SUCCESS records
    for the one alert; when that request throws, the alert ends healing
    with the fallback action, after its diagnosis had succeeded and its
    sequence had completed. *)
Theorem successful_diagnosis_healed_again :
  option_map success_messages (exec some_key fast_second_diagnosis initial)
  = Some [ "Resolved alert: Pipe stalled. Action Taken: Trigger Backfill" ] /\
  statuses some_key "alert-1000-1" second_alert_resolved_twice initial
  = [ None; Some healing; Some healing; Some healing; Some healing;
      Some healing; Some resolved; Some healing; Some healing; Some healing;
      Some resolved ] /\
  option_map success_messages (exec some_key second_alert_resolved_twice initial)
  = Some [ "Resolved alert: Pipe stalled. Action Taken: Trigger Backfill";
           "Resolved alert: Glue OOM. Action Taken: Scale Glue Workers";
           "Resolved alert: Pipe stalled. Action Taken: Trigger Backfill" ] /\
  option_map alert_rows (exec some_key success_then_stalled initial)
  = Some [ ("alert-1000-0", resolved, Some "Scale Glue Workers");
           ("alert-1000-1", healing, Some "Manual intervention required") ] /\
  option_map runs_in_progress (exec some_key success_then_stalled initial)
  = Some [].
Proof. repeat split; vm_compute; reflexivity. Qed.
